(** * ChainspaceNetwork: EC2 fleet management (chainspacemeasurements/instances.py)

    A shallow embedding of [instances.py].  The module has three layers and
    the development follows them:

    - the inventory queries ([_get_running_instances] and friends) and
      [launch], which talk to EC2 through boto3;
    - the per-node operations ([_single_ssh_connect], [_single_ssh_exec], ...)
      which act on the [ssh_connections] dictionary and on paramiko clients;
    - the fleet operations ([ssh_exec], [install_deps], ...) which hand one
      argument tuple per running instance to [Pool(threads).map].

    boto3, paramiko and [multiprocessing.dummy.Pool] are libraries, not code
    of this repository; each has a small model below, kept next to the
    place where the source calls it. *)

From Stdlib Require Import ZArith Lia Ascii.
From stdpp Require Import gmap strings list fin_maps pretty.

Local Open Scope string_scope.
Local Open Scope list_scope.

(** ** Exceptions and the state-and-exception monad *)

(** The exceptions the module can meet.  [KeyError] is what a failed
    dictionary subscript raises; [SSHException] and [AttributeError] come
    from paramiko, [ClientError] from boto3. *)
Inductive exn : Type :=
| KeyError (key : string)
| SSHException (msg : string)
| AttributeError (msg : string)
| ClientError (msg : string).

#[global] Instance exn_eq_dec : EqDecision exn.
Proof. solve_decision. Defined.

Inductive result (A : Type) : Type :=
| Ok (a : A)
| Raise (e : exn).
Arguments Ok {A} a.
Arguments Raise {A} e.

(** ** EC2 inventory (boto3 [ec2.instances]) *)

Record Instance : Type := mkInstance {
  id : string;
  public_ip_address : string;
  tags : list (string * string);
  state_name : string
}.

(** One element of the [Filters=[...]] argument. *)
Record Filter : Type := mkFilter {
  Name : string;
  Values : list string
}.

Fixpoint assoc (k : string) (l : list (string * string)) : option string :=
  match l with
  | [] => None
  | (k', v) :: r => if String.eqb k k' then Some v else assoc k r
  end.

(** The attribute of an instance a filter name designates: ["tag:<key>"] is
    the value of that tag, ["instance-state-name"] the lifecycle state. *)
Definition attribute (name : string) (i : Instance) : option string :=
  if String.eqb name "instance-state-name" then Some (state_name i)
  else if String.prefix "tag:" name
       then assoc (String.substring 4 (String.length name - 4) name) (tags i)
       else None.

(** The characters EC2 gives a meaning to in a filter value: the two
    wildcards and the backslash that escapes them. *)
Definition special (c : ascii) : bool :=
  Ascii.eqb c "*"%char || Ascii.eqb c "?"%char || Ascii.eqb c "\"%char.

(** EC2 compares an attribute with a filter value as a pattern: [*]
    stands for any run of characters, [?] for one character, a backslash
    followed by one of [*], [?] and the backslash for that character, and
    every other character for itself. *)
Fixpoint wildcard_match (pattern s : string) : bool :=
  match pattern with
  | EmptyString => match s with EmptyString => true | String _ _ => false end
  | String c pattern' =>
      if Ascii.eqb c "*"%char
      then (fix star (t : string) : bool :=
              wildcard_match pattern' t
              || match t with
                 | EmptyString => false
                 | String _ t' => star t'
                 end) s
      else match s with
           | EmptyString => false
           | String d s' =>
               if Ascii.eqb c "?"%char then wildcard_match pattern' s'
               else if Ascii.eqb c "\"%char
               then match pattern' with
                    | String e pattern'' =>
                        if special e
                        then Ascii.eqb e d && wildcard_match pattern'' s'
                        else Ascii.eqb c d && wildcard_match pattern' s'
                    | EmptyString => Ascii.eqb c d && wildcard_match pattern' s'
                    end
               else Ascii.eqb c d && wildcard_match pattern' s'
           end
  end.



Definition filter_matches (i : Instance) (f : Filter) : bool :=
  match attribute (Name f) i with
  | Some v => existsb (fun pattern => wildcard_match pattern v) (Values f)
  | None => false
  end.

(** [collection.filter(Filters=fs)]: the instances matching every filter, in
    inventory order. *)
Definition instances_filter (fs : list Filter) (inv : list Instance) : list Instance :=
  List.filter (fun i => forallb (filter_matches i) fs) inv.

(** ** paramiko clients *)

Inductive client_state : Type :=
| Fresh
| Connected (hostname : string)
| Closed.

#[global] Instance client_state_eq_dec : EqDecision client_state.
Proof. solve_decision. Defined.

(** What lies outside the process: whether a connection attempt to a host
    fails, what a command prints there on stdout and stderr (or how opening
    the channel fails), and the identifier EC2 gives to the n-th instance
    it creates. *)
Record Remote : Type := mkRemote {
  connect_error : string -> option exn;
  exec_outcome : string -> string -> result (list string * list string);
  new_instance_id : nat -> string
}.

(** ** The state *)

(** [self] of [ChainspaceNetwork] together with the world it acts on.
    [ssh_connections] is keyed by the instance identifier: boto3 resources
    hash and compare by their identifiers.  A paramiko client is the index
    of its state in [clients]. *)
Record World : Type := mkWorld {
  network_id : string;
  aws_region : string;
  ssh_connections : gmap string nat;
  inventory : list Instance;
  clients : list client_state;
  stdout : list string;
  remote : Remote
}.

Definition set_ssh_connections (m : gmap string nat) (w : World) : World :=
  mkWorld (network_id w) (aws_region w) m (inventory w) (clients w) (stdout w) (remote w).
Definition set_inventory (inv : list Instance) (w : World) : World :=
  mkWorld (network_id w) (aws_region w) (ssh_connections w) inv (clients w) (stdout w) (remote w).
Definition set_clients (cs : list client_state) (w : World) : World :=
  mkWorld (network_id w) (aws_region w) (ssh_connections w) (inventory w) cs (stdout w) (remote w).
Definition set_stdout (out : list string) (w : World) : World :=
  mkWorld (network_id w) (aws_region w) (ssh_connections w) (inventory w) (clients w) out (remote w).

Definition M (A : Type) : Type := World -> World * result A.

Definition ret {A} (a : A) : M A := fun w => (w, Ok a).
Definition raise {A} (e : exn) : M A := fun w => (w, Raise e).
Definition bind {A B} (m : M A) (k : A -> M B) : M B :=
  fun w => match m w with
           | (w', Ok a) => k a w'
           | (w', Raise e) => (w', Raise e)
           end.
Definition get : M World := fun w => (w, Ok w).
Definition modify (f : World -> World) : M unit := fun w => (f w, Ok tt).

Notation "x <- m ;; k" := (bind m (fun x => k))
  (at level 100, m at next level, right associativity).
Notation "m ;;; k" := (bind m (fun _ => k))
  (at level 100, right associativity).

(** [for x in xs: body(x)]; the first exception leaves the loop. *)
Fixpoint for_each {A} (xs : list A) (body : A -> M unit) : M unit :=
  match xs with
  | [] => ret tt
  | x :: r => body x ;;; for_each r body
  end.

(** ** [__init__] and the inventory queries *)

(** [ChainspaceNetwork(network_id, aws_region)], for a network identifier
    that is already a string ([str] is the identity on it), in a world with
    the given inventory and hosts. *)
Definition __init__ (net_id region : string) (inv : list Instance) (r : Remote) : World :=
  mkWorld net_id region ∅ inv [] [] r.

Definition running_filters (w : World) : list Filter :=
  [ mkFilter "tag:type" ["chainspace"];
    mkFilter "tag:network_id" [network_id w];
    mkFilter "instance-state-name" ["running"] ].



Definition _get_running_instances (w : World) : list Instance :=
  instances_filter (running_filters w) (inventory w).



(** ** Logging *)

Definition newline : string := String (Ascii.ascii_of_nat 10) EmptyString.

(** [sys.stdout.write('{}\n'.format(message))]: [stdout] keeps the writes
    in order. *)
Definition _safe_print (message : string) : M unit :=
  modify (fun w => set_stdout (stdout w ++ [message +:+ newline]) w).

Definition _log (message : string) : M unit := _safe_print message.

Definition _log_instance (instance : Instance) (message : string) : M unit :=
  _log ("[instance " +:+ id instance +:+ "] " +:+ message).

(** ** paramiko, as far as the module uses it *)

(** [paramiko.SSHClient()]: a new client object. *)
Definition SSHClient : M nat :=
  w <- get ;;
  modify (set_clients (clients w ++ [Fresh])) ;;;
  ret (length (clients w)).

(** [client.connect(hostname=..., username='admin')]. *)
Definition client_connect (client : nat) (hostname : string) : M unit :=
  w <- get ;;
  match connect_error (remote w) hostname with
  | Some e => raise e
  | None => modify (set_clients (<[client := Connected hostname]> (clients w)))
  end.

(** [client.exec_command(command)]: the lines of the command's stdout and
    stderr.  A client that is not connected has no transport. *)
Definition client_exec_command (client : nat) (command : string)
  : M (list string * list string) :=
  w <- get ;;
  match clients w !! client with
  | Some (Connected hostname) =>
      match exec_outcome (remote w) hostname command with
      | Ok out => ret out
      | Raise e => raise e
      end
  | _ => raise (AttributeError "'NoneType' object has no attribute 'open_session'")
  end.

(** [client.close()]. *)
Definition client_close (client : nat) : M unit :=
  modify (fun w => set_clients (<[client := Closed]> (clients w)) w).

(** [self.ssh_connections[instance]] as an expression. *)
Definition ssh_connections_getitem (instance : Instance) : M nat :=
  w <- get ;;
  match ssh_connections w !! id instance with
  | Some client => ret client
  | None => raise (KeyError (id instance))
  end.

(** [self.ssh_connections[instance] = client]. *)
Definition ssh_connections_setitem (instance : Instance) (client : nat) : M unit :=
  modify (fun w => set_ssh_connections (<[id instance := client]> (ssh_connections w)) w).

(** ** String helpers *)

Definition is_space (c : Ascii.ascii) : bool :=
  let n := Ascii.nat_of_ascii c in
  Nat.eqb n 32 || (Nat.leb 9 n && Nat.leb n 13).

(** [message.rstrip()]. *)
Fixpoint rstrip (s : string) : string :=
  match s with
  | EmptyString => EmptyString
  | String c r =>
      match rstrip r with
      | EmptyString => if is_space c then EmptyString else String c EmptyString
      | r' => String c r'
      end
  end.

(** [iter(stdout.readline, '')]: the lines read before the first empty one. *)
Fixpoint iter_readline (lines : list string) : list string :=
  match lines with
  | [] => []
  | l :: r => if String.eqb l "" then [] else l :: iter_readline r
  end.

(** ** The per-node operations *)

(** [client.set_missing_host_key_policy(paramiko.AutoAddPolicy())] has no
    effect on the state kept here. *)
Definition _single_ssh_connect (instance : Instance) : M unit :=
  _log_instance instance "Initiating SSH connection..." ;;;
  client <- SSHClient ;;
  client_connect client (public_ip_address instance) ;;;
  ssh_connections_setitem instance client ;;;
  _log_instance instance "Initiated SSH connection.".

(** The two [try: ... except Exception: pass] blocks guard [_log_instance],
    which cannot raise here. *)
Definition _single_ssh_exec (instance : Instance) (command : string) : M unit :=
  _log_instance instance ("Executing command: " +:+ command) ;;;
  client <- ssh_connections_getitem instance ;;
  out <- client_exec_command client command ;;
  for_each (iter_readline (fst out))
    (fun message => _log_instance instance (rstrip message)) ;;;
  for_each (snd out)
    (fun message => _log_instance instance (rstrip message)) ;;;
  _log_instance instance ("Executed command: " +:+ command).

Definition _single_ssh_close (instance : Instance) : M unit :=
  _log_instance instance "Closing SSH connection..." ;;;
  client <- ssh_connections_getitem instance ;;
  client_close client ;;;
  _log_instance instance "Closed SSH connection.".

Definition install_deps_commands : list string :=
  [ "sudo apt update";
    "sudo apt install -t jessie-backports openjdk-8-jdk -y";
    "sudo apt install git python-pip maven screen psmisc -y" ].

Definition _single_install_deps (instance : Instance) : M unit :=
  _log_instance instance "Installing Chainspace dependencies..." ;;;
  for_each install_deps_commands (fun command => _single_ssh_exec instance command) ;;;
  _log_instance instance "Installed Chainspace dependencies.".

Definition install_core_commands : list string :=
  [ "git clone https://github.com/musalbas/chainspace";
    "sudo pip install chainspace/chainspacecontract";
    "sudo update-alternatives --set java /usr/lib/jvm/java-8-openjdk-amd64/jre/bin/java";
    "cd chainspace/chainspacecore; export JAVA_HOME=/usr/lib/jvm/java-8-openjdk-amd64; mvn package assembly:single" ].

Definition _single_install_core (instance : Instance) : M unit :=
  _log_instance instance "Installing Chainspace core..." ;;;
  for_each install_core_commands (fun command => _single_ssh_exec instance command) ;;;
  _log_instance instance "Installed Chainspace core.".

(** ** [launch] and the collection actions *)

Record Ebs : Type := mkEbs {
  Encrypted : bool;
  DeleteOnTermination : bool;
  VolumeSize : Z
}.

Record BlockDeviceMapping : Type := mkBlockDeviceMapping {
  DeviceName : string;
  Ebs_ : Ebs
}.

Record TagSpecification : Type := mkTagSpecification {
  ResourceType : string;
  Tags : list (string * string)
}.

(** The keyword arguments of [ec2.create_instances]. *)
Record RunInstances : Type := mkRunInstances {
  BlockDeviceMappings : list BlockDeviceMapping;
  ImageId : string;
  InstanceType : string;
  MinCount : Z;
  MaxCount : Z;
  KeyName : string;
  SecurityGroups : list string;
  TagSpecifications : list TagSpecification
}.

Definition _jessie_mapping : list (string * string) :=
  [ ("ap-northeast-1", "ami-dbc0bcbc");
    ("ap-northeast-2", "ami-6d8b5a03");
    ("ap-south-1", "ami-9a83f5f5");
    ("ap-southeast-1", "ami-0842e96b");
    ("ap-southeast-2", "ami-881317eb");
    ("ca-central-1", "ami-a1fe43c5");
    ("eu-central-1", "ami-5900cc36");
    ("eu-west-1", "ami-402f1a33");
    ("eu-west-2", "ami-87848ee3");
    ("sa-east-1", "ami-b256ccde");
    ("us-east-1", "ami-b14ba7a7");
    ("us-east-2", "ami-b2795cd7");
    ("us-west-1", "ami-94bdeef4");
    ("us-west-2", "ami-221ea342") ].

(** The request [launch] builds once the image of the region is known. *)
Definition launch_request (w : World) (image : string) (count : Z) (key_name : string)
  : RunInstances :=
  {| BlockDeviceMappings :=
       [ mkBlockDeviceMapping "/dev/sda1" (mkEbs false true 2) ];
     ImageId := image;
     InstanceType := "t2.micro";
     MinCount := count;
     MaxCount := count;
     KeyName := key_name;
     SecurityGroups := ["chainspace"];
     TagSpecifications :=
       [ mkTagSpecification "instance"
           [ ("type", "chainspace");
             ("network_id", network_id w);
             ("Name", "Chainspace node (network: " +:+ network_id w +:+ ")") ] ] |}.

(** The tags a request gives to the instances it creates. *)
Definition instance_tags (req : RunInstances) : list (string * string) :=
  concat (map Tags
    (List.filter (fun ts => String.eqb (ResourceType ts) "instance") (TagSpecifications req))).

(** EC2's side of [create_instances]: a request for at least [MinCount] and
    at most [MaxCount] instances is refused unless
    [1 <= MinCount <= MaxCount]; capacity permitting, [MaxCount] instances
    are created, pending, with the tags of the request. *)
Definition create_instances (req : RunInstances) : M unit :=
  w <- get ;;
  if (1 <=? MinCount req)%Z && (MinCount req <=? MaxCount req)%Z
  then
    modify (set_inventory (inventory w ++
      map (fun k => mkInstance (new_instance_id (remote w) (length (inventory w) + k))
                      "" (instance_tags req) "pending")
          (seq 0 (Z.to_nat (MaxCount req)))))
  else raise (ClientError "InvalidParameterValue").

Definition launch (count : Z) (key_name : string) : M unit :=
  _log ("Launching " +:+ pretty count +:+ " instances...") ;;;
  w <- get ;;
  match assoc (aws_region w) _jessie_mapping with
  | None => raise (KeyError (aws_region w))
  | Some image =>
      create_instances (launch_request w image count key_name) ;;;
      _log ("Launched " +:+ pretty count +:+ " instances.")
  end.







(** ** [multiprocessing.dummy.Pool]: a pool of worker threads

    [Pool(processes)] starts [processes] worker threads.  [pool.map(func,
    iterable)] cuts the iterable into chunks, queues one task per chunk and
    blocks until every task has reported.  A worker takes a task from the
    queue, applies [func] to the items of its chunk in order, and reports
    either success or the exception that ended the chunk.  The first
    exception reported is kept, and [map] raises it in the caller once all
    tasks have reported.  This follows CPython 3's [multiprocessing.pool]
    ([_map_async], [_get_tasks], [mapstar], [worker], [MapResult]); the
    queue is filled at once here, where a helper thread fills it lazily.

    One application of [func] is one atomic step on the shared state.  The
    fields [trace] and [skipped] are history variables: [trace] lists the
    applications of [func] in the order they happened, each with what it
    returned, and [skipped] the items dropped because an earlier item of
    their chunk raised.  They influence nothing. *)

Section Pool.
Context {A S : Type}.
Variable func : A -> S -> S * result unit.

Record PoolState : Type := mkPool {
  taskqueue : list (list A);
  workers : list (option (list A));
  number_left : nat;
  success : bool;
  value : option exn;
  shared : S;
  trace : list (A * result unit);
  skipped : list A
}.

(** [Pool._get_tasks]: slices of [size] items until the iterable is
    exhausted. *)
Fixpoint _get_tasks_from (fuel : nat) (it : list A) (size : nat) : list (list A) :=
  match fuel with
  | O => []
  | Datatypes.S fuel' =>
      match take size it with
      | [] => []
      | x => x :: _get_tasks_from fuel' (drop size it) size
      end
  end.

Definition _get_tasks (it : list A) (size : nat) : list (list A) :=
  _get_tasks_from (length it) it size.

(** The chunk size [_map_async] computes when none is given. *)
Definition chunksize_of (len processes : nat) : nat :=
  if Nat.eqb len 0 then 0
  else if Nat.eqb (len mod (processes * 4)) 0
       then len / (processes * 4)
       else len / (processes * 4) + 1.

(** [MapResult.__init__]. *)
Definition number_left_of (len chunksize : nat) : nat :=
  if Nat.eqb chunksize 0 then 0
  else len / chunksize + (if Nat.eqb (len mod chunksize) 0 then 0 else 1).

(** [Pool(processes)] followed by [_map_async(func, iterable, mapstar)]. *)
Definition map_async (processes : nat) (iterable : list A) (s : S) : PoolState :=
  let chunksize := chunksize_of (length iterable) processes in
  {| taskqueue := _get_tasks iterable chunksize;
     workers := replicate processes None;
     number_left := number_left_of (length iterable) chunksize;
     success := true;
     value := None;
     shared := s;
     trace := [];
     skipped := [] |}.

(** One step of worker thread [n].  An idle worker takes the next task,
    a busy one applies [func] to the next item of its chunk.  When the
    chunk is exhausted or an item raises, the worker reports and
    [MapResult._set] counts the task down, keeping the first exception. *)
Definition worker_step (n : nat) (p : PoolState) : option PoolState :=
  match workers p !! n with
  | None => None
  | Some None =>
      match taskqueue p with
      | [] => None
      | chunk :: queue =>
          Some (mkPool queue (<[n := Some chunk]> (workers p)) (number_left p)
                  (success p) (value p) (shared p) (trace p) (skipped p))
      end
  | Some (Some []) =>
      Some (mkPool (taskqueue p) (<[n := None]> (workers p)) (pred (number_left p))
              (success p) (value p) (shared p) (trace p) (skipped p))
  | Some (Some (x :: rest)) =>
      match func x (shared p) with
      | (s', Ok u) =>
          Some (mkPool (taskqueue p) (<[n := Some rest]> (workers p)) (number_left p)
                  (success p) (value p) s'
                  (trace p ++ [(x, Ok u)]) (skipped p))
      | (s', Raise e) =>
          Some (mkPool (taskqueue p) (<[n := None]> (workers p)) (pred (number_left p))
                  false (if success p then Some e else value p) s'
                  (trace p ++ [(x, Raise e)]) (skipped p ++ rest))
      end
  end.

Definition step (p p' : PoolState) : Prop :=
  exists n, worker_step n p = Some p'.

(** [MapResult.ready()]: the event is set when no task is left. *)
Definition ready (p : PoolState) : bool := Nat.eqb (number_left p) 0.

(** [MapResult.get()] once ready; the list [map] returns is not used by
    the callers. *)
Definition map_get (p : PoolState) : result unit :=
  if success p then Ok tt
  else match value p with
       | Some e => Raise e
       | None => Ok tt
       end.

(** The number of workers that hold a task. *)
Definition busy (ws : list (option (list A))) : nat :=
  length (List.filter (fun o => match o with Some _ => true | None => false end) ws).

(** The items held by the workers and not yet passed to [func]. *)
Definition in_progress (ws : list (option (list A))) : list A :=
  concat (map (fun o => match o with Some c => c | None => [] end) ws).

(** Running a schedule: the list names the worker that moves next; a
    worker that cannot move is passed over. *)
Fixpoint run_schedule (sched : list nat) (p : PoolState) : PoolState :=
  match sched with
  | [] => p
  | n :: r =>
      match worker_step n p with
      | Some p' => run_schedule r p'
      | None => run_schedule r p
      end
  end.

(** [func] applied to the items of a list one after the other, whatever
    each application returns: the final state and what each returned. *)
Fixpoint replay (xs : list A) (s : S) : S * list (result unit) :=
  match xs with
  | [] => (s, [])
  | x :: r =>
      let (s', o) := func x s in
      let (s'', os) := replay r s' in
      (s'', o :: os)
  end.

(** The first exception among the results. *)
Fixpoint first_raise (os : list (result unit)) : option exn :=
  match os with
  | [] => None
  | Ok _ :: r => first_raise r
  | Raise e :: _ => Some e
  end.

(** What holds of every state a [map] call passes through, for the
    iterable [it], the initial shared state [s0], [n] workers and chunk
    size [cs]. *)
Record pool_inv (cs n : nat) (it : list A) (s0 : S) (p : PoolState) : Prop := {
  inv_workers : length (workers p) = n;
  inv_left : number_left p = length (taskqueue p) + busy (workers p);
  inv_items :
    Permutation it
      (map fst (trace p) ++ skipped p ++ concat (taskqueue p) ++ in_progress (workers p));
  inv_replay : replay (map fst (trace p)) s0 = (shared p, map snd (trace p));
  inv_value : value p = first_raise (map snd (trace p));
  inv_success : success p = true <-> value p = None;
  inv_queue : Forall (fun c => length c <= cs) (taskqueue p);
  inv_chunks : Forall (fun o => match o with Some c => length c <= cs | None => True end)
                 (workers p);
  inv_skipped_small : cs <= 1 -> skipped p = [];
  inv_skipped_success : success p = true -> skipped p = []
}.

(** What has become of a chunk.  It has been run to its end: [func] was
    applied to each of its items and returned. *)
Definition chunk_done (p : PoolState) (c : list A) : Prop :=
  Forall (fun x => In (x, Ok tt) (trace p)) c.

(** Or it has been run to its first failing item: [func] returned on the
    items before it, raised on it, and the items behind it were dropped. *)
Definition chunk_failed (p : PoolState) (c : list A) : Prop :=
  exists pre x e post,
    c = pre ++ x :: post
    /\ Forall (fun y => In (y, Ok tt) (trace p)) pre
    /\ In (x, Raise e) (trace p)
    /\ Forall (fun y => In y (skipped p)) post.

(** How the chunks queued at the start, the queue, the workers and the
    two history variables stay related. *)
Record chunk_inv (chunks : list (list A)) (p : PoolState) : Prop := {
  ci_queue : forall c, In c (taskqueue p) -> In c chunks;
  ci_workers : forall rest, In (Some rest) (workers p) ->
    exists c done, In c chunks /\ c = done ++ rest
                   /\ Forall (fun x => In (x, Ok tt) (trace p)) done;
  ci_skipped : forall y, In y (skipped p) ->
    exists c pre x e post, In c chunks /\ c = pre ++ x :: post
                           /\ In (x, Raise e) (trace p) /\ In y post;
  ci_chunks : forall c, In c chunks ->
    In c (taskqueue p)
    \/ (exists done rest, c = done ++ rest /\ In (Some rest) (workers p)
                          /\ Forall (fun x => In (x, Ok tt) (trace p)) done)
    \/ chunk_done p c
    \/ chunk_failed p c
}.

(** A measure every step decreases. *)
Definition weight (p : PoolState) : nat :=
  sum_list_with (fun c => 2 + length c) (taskqueue p)
  + sum_list_with (fun o => match o with Some c => 1 + length c | None => 0 end) (workers p).

End Pool.

Arguments PoolState : clear implicits.

(** ** The fleet operations *)

(** The argument tuples handed to [pool.map]: a bound per-node method, the
    instance, and for [_single_ssh_exec] the command. *)
Inductive args : Type :=
| args_install_deps (instance : Instance)
| args_install_core (instance : Instance)
| args_ssh_connect (instance : Instance)
| args_ssh_exec (instance : Instance) (command : string)
| args_ssh_close (instance : Instance).

(** The first component of the tuple, called on the others. *)
Definition _multi_args_wrapper (a : args) : M unit :=
  match a with
  | args_install_deps instance => _single_install_deps instance
  | args_install_core instance => _single_install_core instance
  | args_ssh_connect instance => _single_ssh_connect instance
  | args_ssh_exec instance command => _single_ssh_exec instance command
  | args_ssh_close instance => _single_ssh_close instance
  end.

Definition args_instance (a : args) : Instance :=
  match a with
  | args_install_deps i | args_install_core i | args_ssh_connect i
  | args_ssh_exec i _ | args_ssh_close i => i
  end.

Definition threads : nat := 100.
Definition aws_api_threads : nat := 5.

(** The five methods that fan out over the running instances.  They share
    one shape: log, build the argument list, [Pool(threads)], [pool.map],
    [pool.close()], [pool.join()], log. *)
Inductive fleet_op : Type :=
| install_deps
| install_core
| ssh_connect
| ssh_exec (command : string)
| ssh_close.

Definition opening (op : fleet_op) : string :=
  match op with
  | install_deps => "Installing Chainspace dependencies on all nodes..."
  | install_core => "Installing Chainspace core on all nodes..."
  | ssh_connect => "Initiating SSH connection on all nodes..."
  | ssh_exec command => "Executing command on all nodes: " +:+ command
  | ssh_close => "Closing SSH connection on all nodes..."
  end.

Definition closing (op : fleet_op) : string :=
  match op with
  | install_deps => "Installed Chainspace dependencies on all nodes."
  | install_core => "Installed Chainspace core on all nodes."
  | ssh_connect => "Initiated SSH connection on all nodes."
  | ssh_exec command => "Executed command on all nodes: " +:+ command
  | ssh_close => "Closed SSH connection on all nodes..."
  end.

Definition args_for (op : fleet_op) (instance : Instance) : args :=
  match op with
  | install_deps => args_install_deps instance
  | install_core => args_install_core instance
  | ssh_connect => args_ssh_connect instance
  | ssh_exec command => args_ssh_exec instance command
  | ssh_close => args_ssh_close instance
  end.

(** The method up to the point where [pool.map] blocks. *)
Definition fleet_begin (op : fleet_op) (w : World) : PoolState args World :=
  let w1 := fst (_log (opening op) w) in
  map_async threads (map (args_for op) (_get_running_instances w1)) w1.

(** The method from the point where [pool.map] returns or raises.  An
    exception leaves the method at once; [pool.close()] and [pool.join()]
    change nothing that is modelled. *)
Definition fleet_end (op : fleet_op) (p : PoolState args World) : World * result unit :=
  match map_get p with
  | Ok _ => _log (closing op) (shared p)
  | Raise e => (shared p, Raise e)
  end.

Abbreviation fleet_step := (step _multi_args_wrapper).

(** A complete call: some interleaving of the workers takes the pool from
    its initial state to a ready one. *)
Definition fleet_run (op : fleet_op) (w : World) (out : World * result unit) : Prop :=
  exists p, rtc fleet_step (fleet_begin op w) p /\ ready p = true /\ fleet_end op p = out.

(** The argument list a fleet operation builds. *)
Definition fleet_args (op : fleet_op) (w : World) : list args :=
  map (args_for op) (_get_running_instances w).

(** ** Vocabulary of the statements *)



(** The line [_log_instance] writes. *)
Definition instance_line (i : Instance) (message : string) : string :=
  ("[instance " +:+ id i +:+ "] " +:+ message) +:+ newline.

(** A computation that only adds lines of [_log_instance] for [i] to what
    has been written. *)
Definition writes_for {A} (i : Instance) (m : M A) : Prop :=
  forall w, exists l,
    stdout (fst (m w)) = stdout w ++ l
    /\ Forall (fun x => exists message, x = instance_line i message) l.

(** The message of the line a per-node call writes first. *)
Definition first_message (a : args) : string :=
  match a with
  | args_install_deps _ => "Installing Chainspace dependencies..."
  | args_install_core _ => "Installing Chainspace core..."
  | args_ssh_connect _ => "Initiating SSH connection..."
  | args_ssh_exec _ command => "Executing command: " +:+ command
  | args_ssh_close _ => "Closing SSH connection..."
  end.




(** The sessions the mapping tracks for an instance: the values of the
    entries whose key is the instance. *)
Definition sessions_of (w : World) (instance : Instance) : list nat :=
  map snd (List.filter (fun kv => String.eqb (fst kv) (id instance))
             (map_to_list (ssh_connections w))).

(** A computation that leaves a component of the state as it found it,
    whether it returns or raises. *)
Definition keeps {B A} (proj : World -> B) (m : M A) : Prop :=
  forall w, proj (fst (m w)) = proj w.

(** The state after a sequence of per-node calls made one after the other. *)
Definition after_calls (calls : list args) (w : World) : World :=
  fst (replay _multi_args_wrapper calls w).

(** ** Sample worlds *)

Definition quiet_remote : Remote :=
  mkRemote (fun _ => None)
           (fun _ _ => Ok (["ok" +:+ newline], []))
           (fun n => "i-" +:+ pretty n).

Definition node_a : Instance :=
  mkInstance "i-0a" "10.0.0.1" [("type", "chainspace"); ("network_id", "7")] "running".
Definition node_b : Instance :=
  mkInstance "i-0b" "10.0.0.2" [("type", "chainspace"); ("network_id", "7")] "running".
Definition node_c : Instance :=
  mkInstance "i-0c" "10.0.0.3" [("type", "chainspace"); ("network_id", "8")] "running".
Definition node_d : Instance :=
  mkInstance "i-0d" "10.0.0.4" [("type", "chainspace"); ("network_id", "7")] "stopped".

(** Network 7 with two running nodes, a stopped one, and a node of
    another network; no session has been opened. *)
Definition demo_world : World :=
  __init__ "7" "us-east-2" [node_a; node_b; node_c; node_d] quiet_remote.



(** Network 7 with [node_a] alone. *)
Definition lonely_world : World :=
  __init__ "7" "us-east-2" [node_a] quiet_remote.

(** Network 7 with no running node. *)
Definition idle_world : World :=
  __init__ "7" "us-east-2" [node_c; node_d] quiet_remote.

(** Network 7 with [n] running nodes [i-0], [i-1], ... *)
Definition crowd_node (k : nat) : Instance :=
  mkInstance ("i-" +:+ pretty k) "10.0.0.1"
    [("type", "chainspace"); ("network_id", "7")] "running".

Definition crowd (n : nat) : list Instance := map crowd_node (seq 0 n).

Definition crowd_world : World :=
  __init__ "7" "us-east-2" (crowd 401) quiet_remote.

(** An operation for the pool on its own: add the node identifier to a
    shared result list. *)
Definition append_id (x : string) (s : list string) : list string * result unit :=
  (s ++ [x], Ok tt).

(** [lonely_world] once [node_a] has been connected to. *)
Definition connected_world : World :=
  fst (_single_ssh_connect node_a lonely_world).

(** ** The methods built on [ssh_exec], and the two stubs *)

Inductive core_op : Type :=
| start_core
| stop_core
| uninstall_core.

Definition core_command (c : core_op) : string :=
  match c with
  | start_core =>
      "screen -dmS chainspacecore java -cp chainspace/chainspacecore/target/chainspace-1.0-SNAPSHOT-jar-with-dependencies.jar uk.ac.ucl.cs.sec.chainspace.Main"
  | stop_core => "killall java"
  | uninstall_core => "rm -rf chainspace; sudo pip uninstall chainspacecontract"
  end.

Definition core_opening (c : core_op) : string :=
  match c with
  | start_core => "Starting Chainspace core on all nodes..."
  | stop_core => "Stopping Chainspace core on all nodes..."
  | uninstall_core => "Uninstalling Chainspace core on all nodes..."
  end.

Definition core_closing (c : core_op) : string :=
  match c with
  | start_core => "Started Chainspace core on all nodes."
  | stop_core => "Stopping Chainspace core on all nodes."
  | uninstall_core => "Uninstalled Chainspace core on all nodes."
  end.

(** [start_core], [stop_core], [uninstall_core]: log, [self.ssh_exec] of
    the fixed command, log.  An exception of [ssh_exec] leaves the method. *)
Definition core_run (c : core_op) (w : World) (out : World * result unit) : Prop :=
  exists w1 r,
    fleet_run (ssh_exec (core_command c)) (fst (_log (core_opening c) w)) (w1, r)
    /\ out = match r with
             | Ok _ => _log (core_closing c) w1
             | Raise e => (w1, Raise e)
             end.

(** [clean_core] and [config_core] are [pass]. *)
Definition clean_core : M unit := ret tt.
Definition config_core (shards nodes_per_shard : Z) : M unit := ret tt.

(** ** More vocabulary *)


(** The instance has an entry whose client is connected to [hostname]. *)
Definition connected_session (w : World) (i : Instance) (hostname : string) : Prop :=
  exists c, ssh_connections w !! id i = Some c /\ clients w !! c = Some (Connected hostname).

(** The instance has an entry whose client has been closed. *)
Definition closed_session (w : World) (i : Instance) : Prop :=
  exists c, ssh_connections w !! id i = Some c /\ clients w !! c = Some Closed.

(** A component of the state that logging, the clients and the session
    mapping do not reach. *)
Definition static {B} (proj : World -> B) : Prop :=
  (forall out w, proj (set_stdout out w) = proj w)
  /\ (forall cs w, proj (set_clients cs w) = proj w)
  /\ (forall m w, proj (set_ssh_connections m w) = proj w).

(** A computation that only adds to what has been written. *)
Definition appends {A} (m : M A) : Prop :=
  forall w, stdout w `prefix_of` stdout (fst (m w)).

(** A computation that changes nothing but what has been written. *)
Definition only_logs {A} (m : M A) : Prop :=
  forall w, exists out, fst (m w) = set_stdout out w.

(** Every client the mapping names exists. *)
Definition sessions_exist (w : World) : Prop :=
  forall k c, ssh_connections w !! k = Some c -> c < length (clients w).

(** ** More sample worlds *)

(** [connected_world] once the session of [node_a] has been closed. *)
Definition closed_world : World :=
  fst (_single_ssh_close node_a connected_world).

(** [demo_world] in a region that has no image. *)
Definition antarctic_world : World :=
  __init__ "7" "aq-south-1" [node_a; node_b; node_c; node_d] quiet_remote.

(** A run of [ssh_connect] on [demo_world], and the state it ends in. *)
Definition demo_connect_run : PoolState args World :=
  run_schedule _multi_args_wrapper [0; 1; 1; 0; 1; 0] (fleet_begin ssh_connect demo_world).

Definition demo_connected : World :=
  fst (fleet_end ssh_connect demo_connect_run).

(** A run of [ssh_exec] after that, and the state it ends in. *)
Definition demo_exec_run : PoolState args World :=
  run_schedule _multi_args_wrapper [4; 4; 4; 2; 2; 2]
    (fleet_begin (ssh_exec "uptime") demo_connected).

Definition demo_executed : World :=
  fst (fleet_end (ssh_exec "uptime") demo_exec_run).

(** A run of [ssh_close] after the connect, and the state it ends in. *)
Definition demo_close_run : PoolState args World :=
  run_schedule _multi_args_wrapper [0; 1; 0; 1; 0; 1] (fleet_begin ssh_close demo_connected).

Definition demo_closed : World :=
  fst (fleet_end ssh_close demo_close_run).

(** Hosts of which 10.0.0.2 refuses connections, the world of
    [demo_world] with them, and a run of [ssh_connect] there. *)
Definition stubborn_remote : Remote :=
  mkRemote (fun h => if String.eqb h "10.0.0.2" then Some (SSHException "timed out") else None)
           (fun _ _ => Ok (["ok" +:+ newline], []))
           (fun n => "i-" +:+ pretty n).

Definition stubborn_world : World :=
  __init__ "7" "us-east-2" [node_a; node_b; node_c; node_d] stubborn_remote.

Definition stubborn_run : PoolState args World :=
  run_schedule _multi_args_wrapper [0; 1; 0; 1; 0] (fleet_begin ssh_connect stubborn_world).

(** A run of [ssh_exec] on [demo_world], where no session is open. *)
Definition demo_early_run : PoolState args World :=
  run_schedule _multi_args_wrapper [0; 1; 0; 1] (fleet_begin (ssh_exec "uptime") demo_world).

(** A run of [ssh_exec] on [crowd_world], where no session is open: one
    worker takes the chunks one after the other. *)
Definition crowd_run : PoolState args World :=
  run_schedule _multi_args_wrapper (replicate 402 0)
    (fleet_begin (ssh_exec "uptime") crowd_world).

(** The run of [ssh_exec] inside [start_core] on [demo_world]. *)
Definition demo_core_run : PoolState args World :=
  run_schedule _multi_args_wrapper [0; 1; 0; 1]
    (fleet_begin (ssh_exec (core_command start_core))
       (fst (_log (core_opening start_core) demo_world))).

(** * Facts about the worker pool *)

Section PoolFacts.
Context {A S : Type}.
Variable func : A -> S -> S * result unit.

Lemma workers_split (ws : list (option (list A))) n o :
  ws !! n = Some o ->
  exists l1 l2, ws = l1 ++ o :: l2 /\ forall o', <[n := o']> ws = l1 ++ o' :: l2.
Proof.
  intros H. exists (take n ws), (drop (Datatypes.S n) ws). split.
  - symmetry. by apply take_drop_middle.
  - intros o'. apply insert_take_drop. by eapply lookup_lt_Some.
Qed.

Lemma busy_app (l1 l2 : list (option (list A))) : busy (l1 ++ l2) = busy l1 + busy l2.
Proof. unfold busy. by rewrite List.filter_app, length_app. Qed.

Lemma busy_cons o (l : list (option (list A))) :
  busy (o :: l) = (match o with Some _ => 1 | None => 0 end) + busy l.
Proof. unfold busy. destruct o; reflexivity. Qed.

Lemma busy_le_length (ws : list (option (list A))) : busy ws <= length ws.
Proof. unfold busy. apply List.filter_length_le. Qed.

Lemma in_progress_app (l1 l2 : list (option (list A))) :
  in_progress (l1 ++ l2) = in_progress l1 ++ in_progress l2.
Proof. unfold in_progress. by rewrite map_app, concat_app. Qed.

Lemma in_progress_cons o (l : list (option (list A))) :
  in_progress (o :: l) = (match o with Some c => c | None => [] end) ++ in_progress l.
Proof. reflexivity. Qed.

Lemma busy_zero_all_idle (ws : list (option (list A))) n o :
  busy ws = 0 -> ws !! n = Some o -> o = None.
Proof.
  intros Hb Hn. destruct (workers_split _ _ _ Hn) as (l1 & l2 & -> & _).
  rewrite busy_app, busy_cons in Hb. destruct o; [lia | done].
Qed.

Lemma busy_pos_some (ws : list (option (list A))) :
  0 < busy ws -> exists n c, ws !! n = Some (Some c).
Proof.
  induction ws as [|o ws IH]; [unfold busy; simpl; lia|].
  rewrite busy_cons. destruct o as [c|].
  - intros _. by exists 0, c.
  - simpl. intros H. destruct (IH H) as (n & c & Hn). by exists (Datatypes.S n), c.
Qed.

Lemma first_raise_app os1 os2 :
  first_raise (os1 ++ os2) =
  match first_raise os1 with Some e => Some e | None => first_raise os2 end.
Proof. induction os1 as [|[u|e] os1 IH]; simpl; auto. Qed.

Lemma replay_app xs ys s :
  replay func (xs ++ ys) s =
  let (s', os) := replay func xs s in
  let (s'', os') := replay func ys s' in (s'', os ++ os').
Proof.
  revert s. induction xs as [|x xs IH]; intros s; simpl.
  - by destruct (replay func ys s).
  - destruct (func x s) as [s1 o]. rewrite IH.
    destruct (replay func xs s1) as [s2 os]. by destruct (replay func ys s2).
Qed.

Lemma replay_length xs s : length (snd (replay func xs s)) = length xs.
Proof.
  revert s. induction xs as [|x xs IH]; intros s; simpl; [done|].
  destruct (func x s) as [s1 o]. specialize (IH s1).
  destruct (replay func xs s1). simpl in *. lia.
Qed.

(** *** Chunking *)

Lemma number_left_of_next len size :
  0 < len -> 0 < size ->
  number_left_of len size = Datatypes.S (number_left_of (len - size) size).
Proof.
  intros Hl Hs. unfold number_left_of.
  destruct (Nat.eqb_spec size 0) as [|_]; [lia|].
  destruct (Nat.le_gt_cases size len) as [Hle|Hlt].
  - replace len with ((len - size) + 1 * size) at 1 2 by lia.
    rewrite Nat.div_add by lia. rewrite Nat.Div0.mod_add. lia.
  - replace (len - size) with 0 by lia.
    rewrite (Nat.div_small len size), (Nat.mod_small len size) by lia.
    rewrite Nat.Div0.div_0_l, Nat.Div0.mod_0_l.
    destruct (Nat.eqb_spec len 0); simpl; lia.
Qed.

Lemma get_tasks_from_spec fuel (it : list A) size :
  0 < size -> length it <= fuel ->
  concat (_get_tasks_from fuel it size) = it
  /\ length (_get_tasks_from fuel it size) = number_left_of (length it) size
  /\ Forall (fun c => length c <= size) (_get_tasks_from fuel it size).
Proof.
  intros Hs. revert it. induction fuel as [|fuel IH]; intros it Hf.
  - destruct it; simpl in *; [|lia]. repeat split; auto.
    unfold number_left_of. destruct (Nat.eqb size 0); [done|].
    by rewrite Nat.Div0.div_0_l, Nat.Div0.mod_0_l.
  - simpl. destruct (take size it) as [|y ys] eqn:Ht.
    + assert (it = []) as ->.
      { destruct it; [done|]. destruct size; [lia|]. discriminate. }
      repeat split; auto. unfold number_left_of. destruct (Nat.eqb size 0); [done|].
      by rewrite Nat.Div0.div_0_l, Nat.Div0.mod_0_l.
    + assert (0 < length it) as Hpos.
      { destruct it; [by rewrite take_nil in Ht|simpl; lia]. }
      destruct (IH (drop size it)) as (Hc & Hl & Hb).
      { rewrite length_drop. lia. }
      rewrite <- Ht. repeat split.
      * simpl. rewrite Hc. apply take_drop.
      * simpl. rewrite Hl, length_drop. symmetry. by apply number_left_of_next.
      * constructor; [|done]. rewrite length_take. lia.
Qed.

Lemma chunksize_of_pos len processes : 0 < len -> 0 < chunksize_of len processes.
Proof.
  intros H. unfold chunksize_of.
  destruct (Nat.eqb_spec len 0); [lia|].
  destruct (Nat.eqb_spec (len mod (processes * 4)) 0) as [Hm|Hm]; [|lia].
  destruct (Nat.eq_dec (processes * 4) 0) as [Hz|Hz].
  - rewrite Hz in Hm. simpl in Hm. lia.
  - apply Nat.Div0.div_exact in Hm. nia.
Qed.

Lemma chunksize_of_small len processes :
  len <= 4 * processes -> chunksize_of len processes <= 1.
Proof.
  intros H. unfold chunksize_of.
  destruct (Nat.eqb_spec len 0); [lia|].
  destruct (Nat.eq_dec len (processes * 4)) as [->|Hne].
  - rewrite Nat.Div0.mod_same. simpl. rewrite Nat.div_same by lia. lia.
  - rewrite (Nat.div_small len), (Nat.mod_small len) by lia.
    destruct (Nat.eqb_spec len 0); lia.
Qed.

(** *** The invariant *)

Lemma map_async_inv processes (it : list A) s0 :
  pool_inv func (chunksize_of (length it) processes) processes it s0
    (map_async processes it s0).
Proof.
  assert (Hidle : forall n, busy (replicate n (@None (list A))) = 0
                         /\ in_progress (replicate n (@None (list A))) = []).
  { induction n as [|n [IH1 IH2]]; [done|]. simpl. by rewrite busy_cons, in_progress_cons, IH1, IH2. }
  destruct (Hidle processes) as [Hb Hp].
  destruct (decide (length it = 0)) as [Hz|Hnz].
  - apply nil_length_inv in Hz. subst it.
    split; simpl; rewrite ?Hb, ?Hp, ?length_replicate; try done.
    by apply Forall_replicate.
  - set (cs := chunksize_of (length it) processes).
    assert (0 < cs) as Hcs by (apply chunksize_of_pos; lia).
    destruct (get_tasks_from_spec (length it) it cs Hcs (Nat.le_refl _)) as (Hc & Hl & Hf).
    split; simpl; fold cs; unfold _get_tasks; rewrite ?Hb, ?Hp, ?length_replicate, ?Hc, ?Hl;
      try done.
    + by rewrite app_nil_r.
    + by apply Forall_replicate.
Qed.

Lemma step_inv cs n it s0 p p' :
  pool_inv func cs n it s0 p -> step func p p' -> pool_inv func cs n it s0 p'.
Proof.
  intros [Hw Hl Hi Hr Hv Hs Hq Hc Hk1 Hk2] [k Hk].
  unfold worker_step in Hk.
  destruct (workers p !! k) as [o|] eqn:Hwk; [|done].
  destruct (workers_split _ _ _ Hwk) as (l1 & l2 & Heq & Hins).
  assert (Hck : match o with Some c => length c <= cs | None => True end).
  { eapply Forall_lookup_1 in Hc; eauto. }
  destruct o as [[|x rest]|].
  - injection Hk as <-.
    split; simpl; rewrite ?length_insert; auto.
    + rewrite Hl, Hins, Heq, !busy_app, !busy_cons. lia.
    + rewrite Hi, Hins, Heq, !in_progress_app, !in_progress_cons. done.
    + by apply Forall_insert.
  - destruct (func x (shared p)) as [s' [u|e]] eqn:Hf; injection Hk as <-.
    + split; simpl; rewrite ?length_insert, ?map_app; simpl; auto.
      * rewrite Hl, Hins, Heq, !busy_app, !busy_cons. lia.
      * rewrite Hi, Hins, Heq, !in_progress_app, !in_progress_cons. solve_Permutation.
      * rewrite replay_app, Hr. simpl. by rewrite Hf.
      * rewrite first_raise_app, <- Hv. simpl. by destruct (value p).
      * apply Forall_insert; [done|]. simpl in Hck. lia.
    + split; simpl; rewrite ?length_insert, ?map_app; simpl; auto.
      * rewrite Hl, Hins, Heq, !busy_app, !busy_cons. lia.
      * rewrite Hi, Hins, Heq, !in_progress_app, !in_progress_cons. solve_Permutation.
      * rewrite replay_app, Hr. simpl. by rewrite Hf.
      * rewrite first_raise_app, <- Hv. simpl.
        destruct (success p) eqn:Hsu; [by rewrite (proj1 Hs eq_refl)|].
        destruct (value p) eqn:Hva; [done|]. destruct Hs as [_ Hs]. by specialize (Hs eq_refl).
      * split; [done|]. destruct (success p); [done|].
        destruct (value p) eqn:Hva; [done|]. destruct Hs as [_ Hs]. by specialize (Hs eq_refl).
      * by apply Forall_insert.
      * intros Hcs. rewrite (Hk1 Hcs). simpl in Hck.
        destruct rest; [done|simpl in Hck; lia].
      * done.
  - destruct (taskqueue p) as [|chunk queue] eqn:Hqe; [done|]. injection Hk as <-.
    split; simpl; rewrite ?length_insert; auto.
    + rewrite Hl, Hins, Heq, !busy_app, !busy_cons. simpl. lia.
    + rewrite Hi, Hins, Heq, !in_progress_app, !in_progress_cons. simpl. solve_Permutation.
    + by inversion Hq.
    + apply Forall_insert; [done|]. by inversion Hq.
Qed.

Lemma steps_inv cs n it s0 p p' :
  pool_inv func cs n it s0 p -> rtc (step func) p p' -> pool_inv func cs n it s0 p'.
Proof. intros H Hr. induction Hr; eauto using step_inv. Qed.

(** Every state [pool.map] passes through satisfies the invariant. *)
Lemma reachable_inv processes (it : list A) s0 p :
  rtc (step func) (map_async processes it s0) p ->
  pool_inv func (chunksize_of (length it) processes) processes it s0 p.
Proof. apply steps_inv, map_async_inv. Qed.

Lemma rtc_run_schedule sched p : rtc (step func) p (run_schedule func sched p).
Proof.
  revert p. induction sched as [|n sched IH]; intros p; simpl; [done|].
  destruct (worker_step func n p) as [p'|] eqn:Hs; [|done].
  eapply rtc_l; [by exists n|done].
Qed.

(** *** Termination and absence of deadlock *)

Lemma step_weight p p' : step func p p' -> weight p' < weight p.
Proof.
  intros [k Hk]. unfold worker_step in Hk.
  destruct (workers p !! k) as [o|] eqn:Hwk; [|done].
  destruct (workers_split _ _ _ Hwk) as (l1 & l2 & Heq & Hins).
  unfold weight. destruct o as [[|x rest]|].
  - injection Hk as <-. simpl. rewrite Hins, Heq, !sum_list_with_app. simpl. lia.
  - destruct (func x (shared p)) as [s' [u|e]]; injection Hk as <-; simpl;
      rewrite Hins, Heq, !sum_list_with_app; simpl; lia.
  - destruct (taskqueue p) as [|chunk queue]; [done|]. injection Hk as <-. simpl.
    rewrite Hins, Heq, !sum_list_with_app. simpl. lia.
Qed.

Lemma progress cs n it s0 p :
  0 < n -> pool_inv func cs n it s0 p -> ready p = false -> exists p', step func p p'.
Proof.
  intros Hn Hinv Hready. unfold ready in Hready. apply Nat.eqb_neq in Hready.
  destruct (Nat.eq_dec (busy (workers p)) 0) as [Hb|Hb].
  - destruct (workers p !! 0) as [o|] eqn:H0.
    2:{ apply lookup_ge_None in H0. rewrite (inv_workers _ _ _ _ _ _ Hinv) in H0. lia. }
    assert (o = None) as -> by eauto using busy_zero_all_idle.
    destruct (taskqueue p) as [|chunk queue] eqn:Hq.
    { pose proof (inv_left _ _ _ _ _ _ Hinv) as Hl. rewrite Hq, Hb in Hl. simpl in Hl. lia. }
    eexists. exists 0. unfold worker_step. rewrite H0, Hq. reflexivity.
  - destruct (busy_pos_some (workers p)) as (k & c & Hk); [lia|].
    destruct c as [|x rest].
    + eexists. exists k. unfold worker_step. rewrite Hk. reflexivity.
    + destruct (func x (shared p)) as [s' [u|e]] eqn:Hf;
        eexists; exists k; unfold worker_step; rewrite Hk, Hf; reflexivity.
Qed.

(** A ready pool is at rest: the queue is empty and no worker holds a
    task, so no worker can move. *)
Lemma ready_at_rest cs n it s0 p :
  pool_inv func cs n it s0 p -> ready p = true ->
  taskqueue p = [] /\ busy (workers p) = 0 /\ in_progress (workers p) = []
  /\ forall p', ~ step func p p'.
Proof.
  intros Hinv Hready. unfold ready in Hready. apply Nat.eqb_eq in Hready.
  pose proof (inv_left _ _ _ _ _ _ Hinv) as Hl. rewrite Hready in Hl.
  assert (taskqueue p = []) as Hq by (destruct (taskqueue p); [done|simpl in Hl; lia]).
  assert (busy (workers p) = 0) as Hb by lia.
  assert (Hidle : forall k o, workers p !! k = Some o -> o = None)
    by eauto using busy_zero_all_idle.
  repeat split; auto.
  - clear -Hidle. induction (workers p) as [|o ws IH]; [done|].
    rewrite in_progress_cons. rewrite (Hidle 0 o eq_refl). simpl.
    apply IH. intros k o' Hk. by apply (Hidle (Datatypes.S k)).
  - intros p' [k Hk]. unfold worker_step in Hk.
    destruct (workers p !! k) as [o|] eqn:Hwk; [|done].
    rewrite (Hidle _ _ Hwk), Hq in Hk. done.
Qed.

(** From every state of a [map] call the workers drain the queue: the
    call cannot block for ever. *)
Lemma drains cs n it s0 p :
  0 < n -> pool_inv func cs n it s0 p ->
  exists p', rtc (step func) p p' /\ ready p' = true.
Proof.
  intros Hn. remember (weight p) as m eqn:Hm. revert p Hm.
  induction m as [m IH] using lt_wf_ind. intros p -> Hinv.
  destruct (ready p) eqn:Hr; [by exists p|].
  destruct (progress _ _ _ _ _ Hn Hinv Hr) as [p1 Hstep].
  destruct (IH (weight p1) (step_weight _ _ Hstep) p1 eq_refl) as (p' & Hrtc & Hready).
  { by eapply step_inv. }
  exists p'. split; [by eapply rtc_l|done].
Qed.

End PoolFacts.

(** * Facts about the per-node operations *)

Section Sessions.

Lemma keeps_ret {B A} (proj : World -> B) (a : A) : keeps proj (ret a).
Proof. by intros w. Qed.

Lemma keeps_raise {B A} (proj : World -> B) e : keeps proj (@raise A e).
Proof. by intros w. Qed.

Lemma keeps_get {B} (proj : World -> B) : keeps proj get.
Proof. by intros w. Qed.

Lemma keeps_bind {B A C} (proj : World -> B) (m : M A) (k : A -> M C) :
  keeps proj m -> (forall a, keeps proj (k a)) -> keeps proj (bind m k).
Proof.
  intros Hm Hk w. unfold bind. specialize (Hm w).
  destruct (m w) as [w1 [a|e]]; simpl in *; [|done].
  by rewrite Hk.
Qed.

Lemma keeps_for_each {B C} (proj : World -> B) (body : C -> M unit) xs :
  (forall x, keeps proj (body x)) -> keeps proj (for_each xs body).
Proof.
  intros Hb. induction xs as [|x xs IH]; simpl; [apply keeps_ret|].
  apply keeps_bind; auto.
Qed.

Lemma keeps_log_instance {B} (proj : World -> B) instance message :
  (forall out w, proj (set_stdout out w) = proj w) ->
  keeps proj (_log_instance instance message).
Proof. intros H w. apply H. Qed.

Lemma keeps_getitem {B} (proj : World -> B) instance :
  keeps proj (ssh_connections_getitem instance).
Proof.
  intros w. unfold ssh_connections_getitem, bind, get.
  destruct (ssh_connections w !! id instance); reflexivity.
Qed.

Lemma exec_keeps_sessions instance command :
  keeps ssh_connections (_single_ssh_exec instance command).
Proof.
  unfold _single_ssh_exec.
  apply keeps_bind; [by apply keeps_log_instance|intros _].
  apply keeps_bind; [apply keeps_getitem|intros c].
  apply keeps_bind.
  { intros w. unfold client_exec_command, bind, get.
    destruct (clients w !! c) as [[|h|]|]; try reflexivity.
    destruct (exec_outcome (remote w) h command); reflexivity. }
  intros out.
  repeat (apply keeps_bind; [apply keeps_for_each; intros; by apply keeps_log_instance|intros _]).
  by apply keeps_log_instance.
Qed.

Lemma close_keeps_sessions instance : keeps ssh_connections (_single_ssh_close instance).
Proof.
  unfold _single_ssh_close.
  apply keeps_bind; [by apply keeps_log_instance|intros _].
  apply keeps_bind; [apply keeps_getitem|intros c].
  apply keeps_bind; [by intros w|intros _; by apply keeps_log_instance].
Qed.

Lemma install_deps_keeps_sessions instance :
  keeps ssh_connections (_single_install_deps instance).
Proof.
  unfold _single_install_deps.
  apply keeps_bind; [by apply keeps_log_instance|intros _].
  apply keeps_bind; [|intros _; by apply keeps_log_instance].
  apply keeps_for_each. intros. apply exec_keeps_sessions.
Qed.

Lemma install_core_keeps_sessions instance :
  keeps ssh_connections (_single_install_core instance).
Proof.
  unfold _single_install_core.
  apply keeps_bind; [by apply keeps_log_instance|intros _].
  apply keeps_bind; [|intros _; by apply keeps_log_instance].
  apply keeps_for_each. intros. apply exec_keeps_sessions.
Qed.

(** What [_single_ssh_connect] does, case by case. *)
Lemma connect_cases instance w :
  let w1 := fst (_log_instance instance "Initiating SSH connection..." w) in
  let c := length (clients w) in
  match connect_error (remote w) (public_ip_address instance) with
  | Some e =>
      _single_ssh_connect instance w = (set_clients (clients w ++ [Fresh]) w1, Raise e)
  | None =>
      _single_ssh_connect instance w =
      (fst (_log_instance instance "Initiated SSH connection."
             (set_ssh_connections (<[id instance := c]> (ssh_connections w))
                (set_clients (clients w ++ [Connected (public_ip_address instance)]) w1))),
       Ok tt)
  end.
Proof.
  simpl. unfold _single_ssh_connect, bind, client_connect, bind. simpl.
  destruct (connect_error (remote w) (public_ip_address instance)) as [e|]; simpl; [done|].
  unfold ssh_connections_setitem, _log_instance, _log, _safe_print, modify, set_stdout,
    set_ssh_connections, set_clients. simpl.
  replace (<[length (clients w) := Connected (public_ip_address instance)]>
             (clients w ++ [Fresh]))
    with (clients w ++ [Connected (public_ip_address instance)]); [done|].
  rewrite insert_app_r_alt by lia. by rewrite Nat.sub_diag.
Qed.

Lemma filter_key_none (l : list (string * nat)) k :
  (forall c, (k, c) ∉ l) ->
  List.filter (fun kv => String.eqb (fst kv) k) l = [].
Proof.
  induction l as [|[k' c'] l IH]; intros H; simpl; [done|].
  destruct (String.eqb_spec k' k) as [->|Hne].
  - exfalso. apply (H c'). by left.
  - apply IH. intros c Hc. apply (H c). by right.
Qed.

Lemma filter_key_some (l : list (string * nat)) k c :
  NoDup (l.*1) -> (k, c) ∈ l ->
  map snd (List.filter (fun kv => String.eqb (fst kv) k) l) = [c].
Proof.
  induction l as [|[k' c'] l IH]; intros Hnd Hin; [by apply elem_of_nil in Hin|].
  simpl in Hnd. apply NoDup_cons in Hnd as [Hnotin Hnd]. simpl.
  destruct (String.eqb_spec k' k) as [->|Hne].
  - apply elem_of_cons in Hin as [Heq|Hin].
    + injection Heq as ->. simpl. rewrite filter_key_none; [done|].
      intros c0 Hc0. apply Hnotin. apply list_elem_of_fmap. by exists (k, c0).
    + exfalso. apply Hnotin. apply list_elem_of_fmap. by exists (k, c).
  - apply elem_of_cons in Hin as [Heq|Hin]; [congruence|]. by apply IH.
Qed.

Lemma sessions_of_lookup w instance :
  sessions_of w instance =
  match ssh_connections w !! id instance with Some c => [c] | None => [] end.
Proof.
  unfold sessions_of. destruct (ssh_connections w !! id instance) as [c|] eqn:Hk.
  - apply filter_key_some; [apply NoDup_fst_map_to_list|].
    by apply elem_of_map_to_list.
  - rewrite filter_key_none; [done|]. intros c Hc.
    apply elem_of_map_to_list in Hc. congruence.
Qed.

End Sessions.

(** * The session mapping *)

(** C5.  [_single_ssh_exec] on an instance that has no entry in
    [ssh_connections] fails at the dictionary subscript: it writes its
    first log line, raises [KeyError] for the instance, and does nothing
    else.  No command is sent, no client is touched, and the call ends. *)
Theorem exec_without_session_raises instance command w :
  ssh_connections w !! id instance = None ->
  _single_ssh_exec instance command w =
  (fst (_log_instance instance ("Executing command: " +:+ command) w),
   Raise (KeyError (id instance))).
Proof.
  intros H. unfold _single_ssh_exec, bind, ssh_connections_getitem, bind, get. simpl.
  by rewrite H.
Qed.

Lemma exec_without_session_raises_witness :
  ssh_connections demo_world !! id node_a = None
  /\ snd (_single_ssh_exec node_a "uptime" demo_world) = Raise (KeyError "i-0a")
  /\ clients (fst (_single_ssh_exec node_a "uptime" demo_world)) = [].
Proof.
  assert (H : ssh_connections demo_world !! id node_a = None) by reflexivity.
  split; [exact H|].
  rewrite (exec_without_session_raises node_a "uptime" demo_world H).
  split; reflexivity.
Defined.

(** C6.  Whatever per-node calls (connect, exec, close, install) have been
    made, in whatever order and with whatever outcome, the mapping tracks
    at most one session for a node, and that session is the value the
    dictionary holds under the node's key. *)
Theorem at_most_one_session_per_node calls w instance :
  length (sessions_of (after_calls calls w) instance) <= 1
  /\ forall c, c ∈ sessions_of (after_calls calls w) instance <->
               ssh_connections (after_calls calls w) !! id instance = Some c.
Proof.
  rewrite sessions_of_lookup.
  destruct (ssh_connections (after_calls calls w) !! id instance) as [c0|]; simpl.
  - split; [lia|]. intros c. rewrite list_elem_of_singleton. split; congruence.
  - split; [lia|]. intros c. split; [by intros ?%elem_of_nil|done].
Qed.

(** C7 fails as stated: closing a session leaves the entry in the mapping,
    and a second connect writes the entry a second time. *)
Lemma close_leaves_entry :
  ssh_connections connected_world !! id node_a = Some 0
  /\ snd (_single_ssh_close node_a connected_world) = Ok tt
  /\ ssh_connections (fst (_single_ssh_close node_a connected_world)) !! id node_a = Some 0
  /\ clients (fst (_single_ssh_close node_a connected_world)) = [Closed]
  /\ ssh_connections (fst (_single_ssh_connect node_a connected_world)) !! id node_a = Some 1.
Proof. repeat split; vm_compute; reflexivity. Qed.

(** C7, amended.  Only connect writes the mapping: every successful
    connect stores a new client under the node's key.  Exec, close and the
    two install operations read the entry and leave the mapping as it was;
    nothing removes an entry.  After a close the entry is still there and
    its client is closed. *)
Theorem session_entry_is_never_removed instance command w :
  ssh_connections (fst (_single_ssh_exec instance command w)) = ssh_connections w
  /\ ssh_connections (fst (_single_ssh_close instance w)) = ssh_connections w
  /\ ssh_connections (fst (_single_install_deps instance w)) = ssh_connections w
  /\ ssh_connections (fst (_single_install_core instance w)) = ssh_connections w
  /\ (forall c, ssh_connections w !! id instance = Some c ->
        snd (_single_ssh_close instance w) = Ok tt
        /\ ssh_connections (fst (_single_ssh_close instance w)) !! id instance = Some c
        /\ (c < length (clients w) ->
            clients (fst (_single_ssh_close instance w)) !! c = Some Closed))
  /\ (forall w', _single_ssh_connect instance w = (w', Ok tt) ->
        ssh_connections w' !! id instance = Some (length (clients w))).
Proof.
  split; [apply exec_keeps_sessions|].
  split; [apply close_keeps_sessions|].
  split; [apply install_deps_keeps_sessions|].
  split; [apply install_core_keeps_sessions|].
  split.
  - intros c Hc. rewrite close_keeps_sessions. split; [|split; [done|]].
    + unfold _single_ssh_close, bind, ssh_connections_getitem, bind, get. simpl.
      by rewrite Hc.
    + intros Hlt. unfold _single_ssh_close, bind, ssh_connections_getitem, bind, get. simpl.
      rewrite Hc. simpl. by apply list_lookup_insert_eq.
  - intros w' H. pose proof (connect_cases instance w) as Hcases. simpl in Hcases.
    destruct (connect_error (remote w) (public_ip_address instance)) as [e|].
    + rewrite Hcases in H. discriminate.
    + rewrite Hcases in H. injection H as <-. simpl. apply lookup_insert_eq.
Qed.

(** C10.  [_single_ssh_connect] touches the mapping at the key of its
    instance only.  When it returns, that entry is the client it has just
    created, which no entry could name before.  Every client that existed
    before, the one a previous entry for the instance names among them,
    keeps its state: it is not closed.  When the connection attempt
    raises, the mapping is left as it was. *)
Theorem connect_writes_one_entry instance w w' r :
  _single_ssh_connect instance w = (w', r) ->
  (forall k, k <> id instance -> ssh_connections w' !! k = ssh_connections w !! k)
  /\ (r = Ok tt ->
        ssh_connections w' !! id instance = Some (length (clients w))
        /\ clients w !! length (clients w) = None
        /\ clients w' !! length (clients w) = Some (Connected (public_ip_address instance)))
  /\ (forall old st, ssh_connections w !! id instance = Some old ->
        clients w !! old = Some st -> clients w' !! old = Some st)
  /\ (forall e, r = Raise e -> ssh_connections w' = ssh_connections w).
Proof.
  intros H. pose proof (connect_cases instance w) as Hcases. simpl in Hcases.
  destruct (connect_error (remote w) (public_ip_address instance)) as [e0|];
    rewrite Hcases in H; injection H as <- <-; simpl.
  - split; [done|]. split; [done|]. split; [|done].
    intros old st _ Hold. by apply lookup_app_l_Some.
  - split; [intros k Hk; by apply lookup_insert_ne|].
    split.
    { intros _. split; [apply lookup_insert_eq|].
      split; [by apply lookup_ge_None|].
      rewrite lookup_app_r by lia. by rewrite Nat.sub_diag. }
    split; [|done].
    intros old st _ Hold. by apply lookup_app_l_Some.
Qed.

Lemma connect_writes_one_entry_witness :
  let w' := fst (_single_ssh_connect node_a connected_world) in
  ssh_connections connected_world !! id node_a = Some 0
  /\ ssh_connections w' !! id node_a = Some 1
  /\ clients w' !! 0 = Some (Connected "10.0.0.1")
  /\ ssh_connections w' !! id node_b = ssh_connections connected_world !! id node_b.
Proof.
  pose proof (connect_writes_one_entry node_a connected_world
                (fst (_single_ssh_connect node_a connected_world)) (Ok tt) eq_refl)
    as (Hother & Hnew & Hold & _).
  split; [reflexivity|].
  split; [exact (proj1 (Hnew eq_refl))|].
  split; [exact (Hold 0 (Connected "10.0.0.1") eq_refl eq_refl)|].
  apply Hother. discriminate.
Defined.

Lemma session_entry_is_never_removed_witness :
  ssh_connections (fst (_single_ssh_close node_a connected_world)) !! id node_a = Some 0
  /\ clients (fst (_single_ssh_close node_a connected_world)) !! 0 = Some Closed.
Proof.
  destruct (session_entry_is_never_removed node_a "uptime" connected_world)
    as (_ & _ & _ & _ & Hclose & _).
  destruct (Hclose 0 eq_refl) as (_ & Hentry & Hclosed).
  split; [exact Hentry|]. apply Hclosed. vm_compute. lia.
Defined.

(** * The inventory *)

Section Inventory.














Lemma get_tasks_concat {A} (it : list A) processes :
  concat (_get_tasks it (chunksize_of (length it) processes)) = it.
Proof.
  destruct (decide (length it = 0)) as [Hz|Hnz].
  - apply nil_length_inv in Hz. by subst it.
  - apply get_tasks_from_spec; [apply chunksize_of_pos; lia|done].
Qed.

Lemma launch_cases count key_name w :
  let w1 := fst (_log ("Launching " +:+ pretty count +:+ " instances...") w) in
  match assoc (aws_region w) _jessie_mapping with
  | None => launch count key_name w = (w1, Raise (KeyError (aws_region w)))
  | Some image =>
      if (1 <=? count)%Z
      then launch count key_name w =
           (fst (_log ("Launched " +:+ pretty count +:+ " instances.")
              (set_inventory (inventory w ++
                 map (fun k => mkInstance (new_instance_id (remote w) (length (inventory w) + k))
                       "" (instance_tags (launch_request w image count key_name)) "pending")
                     (seq 0 (Z.to_nat count))) w1)),
            Ok tt)
      else launch count key_name w = (w1, Raise (ClientError "InvalidParameterValue"))
  end.
Proof.
  cbv zeta. unfold launch, bind, get.
  cbn [_log _safe_print modify fst snd set_stdout aws_region].
  destruct (assoc (aws_region w) _jessie_mapping) as [image|]; [|reflexivity].
  unfold create_instances, bind, get.
  cbn [launch_request MinCount MaxCount fst snd].
  rewrite Z.leb_refl, andb_true_r.
  destruct (1 <=? count)%Z; reflexivity.
Qed.





End Inventory.







(** * The fleet operations *)

Section Fleet.

Lemma first_raise_none os :
  first_raise os = None <-> Forall (fun r => r = Ok tt) os.
Proof.
  induction os as [|[[]|e] os IH]; simpl.
  - split; [constructor|done].
  - rewrite IH. split; [by constructor|by inversion 1].
  - split; [done|]. inversion 1; discriminate.
Qed.

Lemma first_raise_some os e :
  In (Raise e) os -> exists e0, first_raise os = Some e0.
Proof.
  induction os as [|[u|e'] os IH]; simpl; [done| |eauto].
  intros [H|H]; [discriminate|auto].
Qed.

(** What [MapResult.get()] does in a state of a [map] call: it raises
    the first exception of the trace, and returns when there is none. *)
Lemma map_get_first_raise {A S} (func : A -> S -> S * result unit) cs n it s0 p :
  pool_inv func cs n it s0 p ->
  map_get p = match first_raise (map snd (trace p)) with
              | Some e => Raise e
              | None => Ok tt
              end.
Proof.
  intros Hinv. unfold map_get. rewrite <- (inv_value _ _ _ _ _ _ Hinv).
  destruct (inv_success _ _ _ _ _ _ Hinv) as [H1 H2].
  destruct (success p), (value p); auto.
  by specialize (H1 eq_refl).
Qed.

(** In a ready state every item has been passed to [func] or skipped. *)
Lemma ready_items {A S} (func : A -> S -> S * result unit) cs n it s0 p :
  pool_inv func cs n it s0 p -> ready p = true ->
  Permutation (map fst (trace p) ++ skipped p) it.
Proof.
  intros Hinv Hr. destruct (ready_at_rest _ _ _ _ _ _ Hinv Hr) as (Hq & _ & Hp & _).
  rewrite (inv_items _ _ _ _ _ _ Hinv), Hq, Hp. simpl. by rewrite !app_nil_r.
Qed.

(** A task leaves the queue only when an idle worker takes it. *)
Lemma step_queue {A S} (func : A -> S -> S * result unit) (p p' : PoolState A S) :
  step func p p' ->
  taskqueue p' = taskqueue p
  \/ (busy (workers p) < length (workers p)
      /\ busy (workers p') = Datatypes.S (busy (workers p))
      /\ exists chunk, taskqueue p = chunk :: taskqueue p').
Proof.
  intros [k Hk]. unfold worker_step in Hk.
  destruct (workers p !! k) as [o|] eqn:Hwk; [|done].
  destruct (workers_split _ _ _ Hwk) as (l1 & l2 & Heq & Hins).
  destruct o as [[|x rest]|].
  - injection Hk as <-. by left.
  - destruct (func x (shared p)) as [s' [u|e]]; injection Hk as <-; by left.
  - destruct (taskqueue p) as [|chunk queue]; [done|]. injection Hk as <-. right.
    simpl. rewrite Hins, Heq, !busy_app, !busy_cons, length_app. simpl.
    pose proof (busy_le_length l1). pose proof (busy_le_length l2).
    repeat split; [lia|lia|by exists chunk].
Qed.

Lemma fleet_begin_eq op w :
  fleet_begin op w = map_async threads (fleet_args op w) (fst (_log (opening op) w)).
Proof. reflexivity. Qed.

Lemma fleet_inv op w p :
  rtc fleet_step (fleet_begin op w) p ->
  pool_inv _multi_args_wrapper (chunksize_of (length (fleet_args op w)) threads) threads
    (fleet_args op w) (fst (_log (opening op) w)) p.
Proof. rewrite fleet_begin_eq. apply reachable_inv. Qed.

Lemma threads_pos : 0 < threads.
Proof. unfold threads. lia. Qed.

Lemma fleet_args_instances op w :
  map args_instance (fleet_args op w) = _get_running_instances w.
Proof.
  unfold fleet_args. rewrite map_map. rewrite <- (map_id (_get_running_instances w)) at 2.
  apply map_ext. intros i. by destruct op.
Qed.

End Fleet.

(** C4.  With no running instance in the network, a fleet operation finds
    [pool.map] ready at once: no worker can make a step, the per-node
    operation is never invoked, and the call returns after writing its two
    log lines. *)
Theorem empty_dispatch_invokes_nothing op w :
  _get_running_instances w = [] ->
  ready (fleet_begin op w) = true
  /\ trace (fleet_begin op w) = []
  /\ (forall p, rtc fleet_step (fleet_begin op w) p -> p = fleet_begin op w)
  /\ (forall out, fleet_run op w out <->
        out = (fst (_log (closing op) (fst (_log (opening op) w))), Ok tt)).
Proof.
  intros Hempty.
  assert (Hbegin : fleet_begin op w = map_async threads [] (fst (_log (opening op) w))).
  { rewrite fleet_begin_eq. unfold fleet_args. by rewrite Hempty. }
  assert (Hready : ready (fleet_begin op w) = true) by (by rewrite Hbegin).
  assert (Hstuck : forall p, rtc fleet_step (fleet_begin op w) p -> p = fleet_begin op w).
  { intros p Hp. apply rtc_inv in Hp as [Heq|(p1 & Hstep & _)]; [done|].
    exfalso. pose proof (fleet_inv op w _ (rtc_refl _ _)) as Hinv.
    by destruct (ready_at_rest _ _ _ _ _ _ Hinv Hready) as (_ & _ & _ & Hno); apply Hno in Hstep. }
  split; [exact Hready|]. split; [by rewrite Hbegin|]. split; [exact Hstuck|].
  assert (Hend : fleet_end op (fleet_begin op w)
                 = (fst (_log (closing op) (fst (_log (opening op) w))), Ok tt)).
  { rewrite Hbegin. reflexivity. }
  intros out. split.
  - intros (p & Hp & _ & Hout). apply Hstuck in Hp. subst p. by rewrite <- Hout.
  - intros ->. exists (fleet_begin op w). split; [apply rtc_refl|]. by split.
Qed.

Lemma empty_dispatch_invokes_nothing_witness :
  fleet_run (ssh_exec "uptime") idle_world
    (fst (_log (closing (ssh_exec "uptime")) (fst (_log (opening (ssh_exec "uptime")) idle_world))),
     Ok tt)
  /\ trace (fleet_begin (ssh_exec "uptime") idle_world) = [].
Proof.
  destruct (empty_dispatch_invokes_nothing (ssh_exec "uptime") idle_world eq_refl)
    as (_ & Htrace & _ & Hrun).
  split; [by apply Hrun|exact Htrace].
Defined.

(** C3.  The pool of a fleet operation has [threads] = 100 workers, and a
    worker holds one task at a time, so at most 100 invocations are under
    way at any moment.  A queued task starts only when an idle worker takes
    it: while all workers are busy the queue does not move. *)
Theorem at_most_threads_at_once op w p :
  rtc fleet_step (fleet_begin op w) p ->
  threads = 100
  /\ length (workers p) = threads
  /\ busy (workers p) <= threads
  /\ (forall p', fleet_step p p' ->
        taskqueue p' = taskqueue p
        \/ (busy (workers p) < threads
            /\ busy (workers p') = Datatypes.S (busy (workers p))
            /\ exists chunk, taskqueue p = chunk :: taskqueue p'))
  /\ (busy (workers p) = threads -> forall p', fleet_step p p' -> taskqueue p' = taskqueue p).
Proof.
  intros Hreach. pose proof (fleet_inv op w p Hreach) as Hinv.
  pose proof (inv_workers _ _ _ _ _ _ Hinv) as Hlen.
  split; [reflexivity|]. split; [exact Hlen|].
  split; [rewrite <- Hlen; apply busy_le_length|].
  split.
  - intros p' Hstep. rewrite <- Hlen. by apply (step_queue _multi_args_wrapper).
  - intros Hfull p' Hstep.
    destruct (step_queue _multi_args_wrapper p p' Hstep) as [H|(Hlt & _)]; [done|lia].
Qed.

Lemma at_most_threads_at_once_witness :
  let p := run_schedule _multi_args_wrapper [3; 8] (fleet_begin ssh_connect demo_world) in
  busy (workers p) = 2 /\ busy (workers p) <= threads.
Proof.
  intros p.
  destruct (at_most_threads_at_once ssh_connect demo_world p (rtc_run_schedule _ _ _))
    as (_ & _ & Hle & _).
  split; [vm_compute; reflexivity|exact Hle].
Defined.

(** C1 fails as stated: with one running node and no session for it,
    [ssh_exec] has a complete run, and every complete run ends with the
    node's [KeyError] raised in the caller. *)
Lemma raise_reaches_the_caller :
  (exists w', fleet_run (ssh_exec "uptime") lonely_world (w', Raise (KeyError "i-0a")))
  /\ forall out, fleet_run (ssh_exec "uptime") lonely_world out ->
       snd out = Raise (KeyError "i-0a").
Proof.
  split.
  - eexists. exists (run_schedule _multi_args_wrapper [0; 0] (fleet_begin (ssh_exec "uptime") lonely_world)).
    split; [apply rtc_run_schedule|]. split; vm_compute; reflexivity.
  - intros out (p & Hreach & Hready & <-).
    pose proof (fleet_inv _ _ _ Hreach) as Hinv.
    pose proof (ready_items _ _ _ _ _ _ Hinv Hready) as Hitems.
    rewrite (inv_skipped_small _ _ _ _ _ _ Hinv), app_nil_r in Hitems
      by (vm_compute; lia).
    change (fleet_args (ssh_exec "uptime") lonely_world)
      with [args_ssh_exec node_a "uptime"] in Hitems.
    symmetry in Hitems. apply Permutation_length_1_inv in Hitems.
    pose proof (inv_replay _ _ _ _ _ _ Hinv) as Hreplay. rewrite Hitems in Hreplay.
    assert (Hsnd : snd (replay _multi_args_wrapper [args_ssh_exec node_a "uptime"]
                          (fst (_log (opening (ssh_exec "uptime")) lonely_world)))
                   = [Raise (KeyError "i-0a")]) by (vm_compute; reflexivity).
    rewrite Hreplay in Hsnd. simpl in Hsnd.
    unfold fleet_end. rewrite (map_get_first_raise _ _ _ _ _ _ Hinv), Hsnd. reflexivity.
Qed.

(** * The pool on its own *)

Section Scenario.
Context {A S : Type}.
Variable func : A -> S -> S * result unit.

Lemma replay_all_ok xs s :
  (forall x s0, snd (func x s0) = Ok tt) ->
  first_raise (snd (replay func xs s)) = None.
Proof.
  intros Hok. revert s. induction xs as [|x xs IH]; intros s; simpl; [done|].
  specialize (Hok x s). destruct (func x s) as [s1 o]. simpl in Hok. subst o.
  specialize (IH s1). by destruct (replay func xs s1).
Qed.

(** When [func] never raises, [map] returns, and by then [func] has been
    applied to every item exactly once, whatever the number of workers. *)
Lemma map_without_failure processes (it : list A) s0 p :
  (forall x s, snd (func x s) = Ok tt) ->
  rtc (step func) (map_async processes it s0) p ->
  ready p = true ->
  map_get p = Ok tt
  /\ Permutation (map fst (trace p)) it
  /\ shared p = fst (replay func (map fst (trace p)) s0).
Proof.
  intros Hok Hreach Hready. pose proof (reachable_inv _ _ _ _ _ Hreach) as Hinv.
  pose proof (inv_replay _ _ _ _ _ _ Hinv) as Hreplay.
  assert (Hnone : first_raise (map snd (trace p)) = None).
  { pose proof (replay_all_ok (map fst (trace p)) s0 Hok) as H. by rewrite Hreplay in H. }
  assert (Hget : map_get p = Ok tt) by (by rewrite (map_get_first_raise _ _ _ _ _ _ Hinv), Hnone).
  split; [exact Hget|]. split; [|by rewrite Hreplay].
  pose proof (ready_items _ _ _ _ _ _ Hinv Hready) as Hitems.
  rewrite (inv_skipped_success _ _ _ _ _ _ Hinv), app_nil_r in Hitems; [done|].
  apply (inv_success _ _ _ _ _ _ Hinv). by rewrite (inv_value _ _ _ _ _ _ Hinv).
Qed.

End Scenario.

Lemma replay_append_id xs s : fst (replay append_id xs s) = s ++ xs.
Proof.
  revert s. induction xs as [|x xs IH]; intros s; simpl; [by rewrite app_nil_r|].
  specialize (IH (s ++ [x])). destruct (replay append_id xs (s ++ [x])). simpl in *.
  by rewrite IH, <- app_assoc.
Qed.

(** Nodes A, B, C, two workers, each invocation adding its node to a
    shared list: whenever [map] is ready the list holds A, B and C, in
    some order. *)
Example three_nodes_two_workers p :
  rtc (step append_id) (map_async 2 ["A"; "B"; "C"] []) p ->
  ready p = true ->
  map_get p = Ok tt /\ Permutation (shared p) ["A"; "B"; "C"].
Proof.
  intros Hreach Hready.
  destruct (map_without_failure append_id 2 _ _ p (fun _ _ => eq_refl) Hreach Hready)
    as (Hget & Hperm & Hshared).
  split; [exact Hget|]. by rewrite Hshared, replay_append_id.
Qed.

(** * Further facts about the per-node operations *)

Section PerNode.

Lemma log_instance_eq i m w :
  _log_instance i m w = (set_stdout (stdout w ++ [instance_line i m]) w, Ok tt).
Proof. reflexivity. Qed.

Lemma set_stdout_twice out1 out2 w :
  set_stdout out2 (set_stdout out1 w) = set_stdout out2 w.
Proof. reflexivity. Qed.

Lemma for_each_log i (f : string -> string) xs w :
  for_each xs (fun m => _log_instance i (f m)) w
  = (set_stdout (stdout w ++ map (fun m => instance_line i (f m)) xs) w, Ok tt).
Proof.
  revert w. induction xs as [|x xs IH]; intros w.
  - destruct w. unfold set_stdout. cbn. by rewrite app_nil_r.
  - cbn [for_each map]. unfold bind. rewrite log_instance_eq, IH, set_stdout_twice.
    do 2 f_equal. cbn [stdout set_stdout]. by rewrite <- app_assoc.
Qed.

(** What [_single_ssh_exec] does, case by case. *)
Lemma exec_cases i command w :
  _single_ssh_exec i command w =
  match ssh_connections w !! id i with
  | None =>
      (set_stdout (stdout w ++ [instance_line i ("Executing command: " +:+ command)]) w,
       Raise (KeyError (id i)))
  | Some c =>
      match clients w !! c with
      | Some (Connected h) =>
          match exec_outcome (remote w) h command with
          | Ok out =>
              (set_stdout
                 (stdout w ++ [instance_line i ("Executing command: " +:+ command)]
                  ++ map (fun m => instance_line i (rstrip m)) (iter_readline (fst out))
                  ++ map (fun m => instance_line i (rstrip m)) (snd out)
                  ++ [instance_line i ("Executed command: " +:+ command)]) w,
               Ok tt)
          | Raise e =>
              (set_stdout (stdout w ++ [instance_line i ("Executing command: " +:+ command)]) w,
               Raise e)
          end
      | _ =>
          (set_stdout (stdout w ++ [instance_line i ("Executing command: " +:+ command)]) w,
           Raise (AttributeError "'NoneType' object has no attribute 'open_session'"))
      end
  end.
Proof.
  unfold _single_ssh_exec, bind. rewrite log_instance_eq.
  unfold ssh_connections_getitem, bind, get.
  cbn [ssh_connections set_stdout].
  destruct (ssh_connections w !! id i) as [c|]; [|reflexivity].
  unfold ret, client_exec_command, bind, get. cbn [clients remote set_stdout].
  destruct (clients w !! c) as [[|h|]|]; try reflexivity.
  destruct (exec_outcome (remote w) h command) as [out|e]; [|reflexivity].
  cbv beta iota delta [ret].
  rewrite (for_each_log i rstrip). cbv beta iota.
  rewrite (for_each_log i rstrip). cbv beta iota.
  rewrite log_instance_eq, !set_stdout_twice.
  do 2 f_equal. cbn [stdout set_stdout]. by rewrite <- !app_assoc.
Qed.

(** What [_single_ssh_close] does, case by case. *)
Lemma close_cases i w :
  _single_ssh_close i w =
  match ssh_connections w !! id i with
  | None =>
      (set_stdout (stdout w ++ [instance_line i "Closing SSH connection..."]) w,
       Raise (KeyError (id i)))
  | Some c =>
      (set_stdout (stdout w ++ [instance_line i "Closing SSH connection...";
                                instance_line i "Closed SSH connection."])
         (set_clients (<[c := Closed]> (clients w)) w),
       Ok tt)
  end.
Proof.
  unfold _single_ssh_close, bind. rewrite log_instance_eq.
  unfold ssh_connections_getitem, bind, get.
  cbn [ssh_connections set_stdout].
  destruct (ssh_connections w !! id i) as [c|]; [|reflexivity].
  unfold ret, client_close, modify. rewrite log_instance_eq.
  unfold set_stdout, set_clients. cbn. by rewrite <- app_assoc.
Qed.

End PerNode.

Section PerNodeMore.

Lemma install_deps_unfold i w :
  _single_install_deps i w =
  (let (w1, r) := for_each install_deps_commands (fun command => _single_ssh_exec i command)
                    (set_stdout (stdout w ++ [instance_line i "Installing Chainspace dependencies..."]) w) in
   match r with
   | Ok _ => _log_instance i "Installed Chainspace dependencies." w1
   | Raise e => (w1, Raise e)
   end).
Proof. reflexivity. Qed.

Lemma install_core_unfold i w :
  _single_install_core i w =
  (let (w1, r) := for_each install_core_commands (fun command => _single_ssh_exec i command)
                    (set_stdout (stdout w ++ [instance_line i "Installing Chainspace core..."]) w) in
   match r with
   | Ok _ => _log_instance i "Installed Chainspace core." w1
   | Raise e => (w1, Raise e)
   end).
Proof. reflexivity. Qed.

(** A non-empty run of commands on an instance without session stops at
    the first one. *)
Lemma for_each_exec_without_session i command commands w :
  ssh_connections w !! id i = None ->
  for_each (command :: commands) (fun command => _single_ssh_exec i command) w
  = (set_stdout (stdout w ++ [instance_line i ("Executing command: " +:+ command)]) w,
     Raise (KeyError (id i))).
Proof.
  intros H. cbn [for_each]. unfold bind. rewrite exec_cases, H. reflexivity.
Qed.

End PerNodeMore.

(** X1.  Exec, close and the two install operations on an instance that
    has no entry in [ssh_connections] raise [KeyError] for the instance
    before anything is sent: the session mapping and the clients are left
    as they were, and only the log lines written before the lookup are
    added (one, or two for the install operations). *)
Theorem no_session_is_a_KeyError a w :
  (forall i, a <> args_ssh_connect i) ->
  ssh_connections w !! id (args_instance a) = None ->
  snd (_multi_args_wrapper a w) = Raise (KeyError (id (args_instance a)))
  /\ ssh_connections (fst (_multi_args_wrapper a w)) = ssh_connections w
  /\ clients (fst (_multi_args_wrapper a w)) = clients w
  /\ length (stdout (fst (_multi_args_wrapper a w))) =
     length (stdout w) + match a with
                         | args_install_deps _ | args_install_core _ => 2
                         | _ => 1
                         end.
Proof.
  intros Hnc H. destruct a as [i|i|i|i command|i]; cbn [_multi_args_wrapper args_instance] in *.
  - rewrite install_deps_unfold. unfold install_deps_commands.
    rewrite for_each_exec_without_session by exact H.
    cbn [fst snd ssh_connections clients stdout set_stdout].
    rewrite !length_app. cbn [length]. repeat split; lia.
  - rewrite install_core_unfold. unfold install_core_commands.
    rewrite for_each_exec_without_session by exact H.
    cbn [fst snd ssh_connections clients stdout set_stdout].
    rewrite !length_app. cbn [length]. repeat split; lia.
  - by destruct (Hnc i).
  - rewrite exec_cases, H. cbn [fst snd ssh_connections clients stdout set_stdout].
    rewrite !length_app. cbn [length]. repeat split; lia.
  - rewrite close_cases, H. cbn [fst snd ssh_connections clients stdout set_stdout].
    rewrite !length_app. cbn [length]. repeat split; lia.
Qed.

Lemma no_session_is_a_KeyError_witness :
  snd (_single_install_core node_b demo_world) = Raise (KeyError "i-0b")
  /\ length (stdout (fst (_single_install_core node_b demo_world))) = 2.
Proof.
  destruct (no_session_is_a_KeyError (args_install_core node_b) demo_world)
    as (Hr & _ & _ & Hl).
  - intros i. discriminate.
  - reflexivity.
  - split; [exact Hr|exact Hl].
Defined.

(** X3.  Close leaves the entry of the instance in place, so a later exec
    on the instance finds the closed client and raises [AttributeError],
    not [KeyError].  A second close returns as the first did and changes
    no client. *)
Theorem closed_session_is_not_reusable i command w c :
  ssh_connections w !! id i = Some c ->
  snd (_single_ssh_close i w) = Ok tt
  /\ ssh_connections (fst (_single_ssh_close i w)) !! id i = Some c
  /\ snd (_single_ssh_exec i command (fst (_single_ssh_close i w)))
     = Raise (AttributeError "'NoneType' object has no attribute 'open_session'")
  /\ snd (_single_ssh_close i (fst (_single_ssh_close i w))) = Ok tt
  /\ clients (fst (_single_ssh_close i (fst (_single_ssh_close i w))))
     = clients (fst (_single_ssh_close i w)).
Proof.
  intros H. rewrite (close_cases i w), H. cbn [fst snd].
  split; [done|]. split; [exact H|].
  split.
  - rewrite exec_cases. cbn [ssh_connections clients set_stdout set_clients]. rewrite H.
    destruct (decide (c < length (clients w))) as [Hlt|Hge].
    + by rewrite list_lookup_insert_eq.
    + rewrite (proj2 (lookup_ge_None _ _)); [done|]. rewrite length_insert. lia.
  - rewrite close_cases. cbn [ssh_connections clients set_stdout set_clients]. rewrite H.
    cbn [fst snd clients set_stdout set_clients]. split; [done|].
    apply list_insert_insert_eq.
Qed.

Lemma closed_session_is_not_reusable_witness :
  snd (_single_ssh_exec node_a "uptime" closed_world)
  = Raise (AttributeError "'NoneType' object has no attribute 'open_session'")
  /\ snd (_single_ssh_close node_a closed_world) = Ok tt.
Proof.
  destruct (closed_session_is_not_reusable node_a "uptime" connected_world 0 eq_refl)
    as (_ & _ & Hexec & Hclose & _).
  split; [exact Hexec|exact Hclose].
Defined.

(** * Further facts about the pool and the fleet operations *)

Section Runs.
Context {A S : Type}.
Variable func : A -> S -> S * result unit.

(** A property of the shared state that every application of [func]
    keeps holds in every state of the pool. *)
Lemma step_shared (P : S -> Prop) p p' :
  (forall x s, P s -> P (fst (func x s))) ->
  step func p p' -> P (shared p) -> P (shared p').
Proof.
  intros HP [k Hk] Hs. unfold worker_step in Hk.
  destruct (workers p !! k) as [[[|x rest]|]|]; [| | |done].
  - by injection Hk as <-.
  - specialize (HP x (shared p) Hs).
    destruct (func x (shared p)) as [s' [u|e]]; by injection Hk as <-.
  - destruct (taskqueue p); [done|]. by injection Hk as <-.
Qed.

Lemma steps_shared (P : S -> Prop) p p' :
  (forall x s, P s -> P (fst (func x s))) ->
  rtc (step func) p p' -> P (shared p) -> P (shared p').
Proof.
  intros HP Hr. induction Hr as [|p p1 p2 Hstep _ IH]; [done|].
  intros Hs. apply IH. by apply (step_shared P p p1).
Qed.

Lemma trace_in_items cs n it s0 p x :
  pool_inv func cs n it s0 p -> In x (map fst (trace p)) -> In x it.
Proof.
  intros Hinv Hx. apply list_elem_of_In. rewrite (inv_items _ _ _ _ _ _ Hinv).
  apply elem_of_app. left. by apply list_elem_of_In.
Qed.

(** Replaying calls that each keep [P] and return under [P]: none raises. *)
Lemma replay_none_raises (P : S -> Prop) xs s :
  (forall x s0, In x xs -> P s0 -> P (fst (func x s0)) /\ snd (func x s0) = Ok tt) ->
  P s ->
  first_raise (snd (replay func xs s)) = None /\ P (fst (replay func xs s)).
Proof.
  revert s. induction xs as [|x xs IH]; intros s HP Hs; simpl; [done|].
  destruct (HP x s (or_introl eq_refl) Hs) as [H1 H2].
  destruct (func x s) as [s1 o]. simpl in *. subst o.
  destruct (IH s1) as [H3 H4]; [intros; apply HP; auto|done|].
  by destruct (replay func xs s1).
Qed.

(** Replaying calls that keep [P], one of which raises under [P]: some
    call raises. *)
Lemma replay_some_raises (P : S -> Prop) xs s x :
  (forall y s0, In y xs -> P s0 -> P (fst (func y s0))) ->
  P s -> In x xs ->
  (forall s0, P s0 -> exists e, snd (func x s0) = Raise e) ->
  exists e, first_raise (snd (replay func xs s)) = Some e.
Proof.
  intros HP Hs Hx Hraise. revert s Hs.
  induction xs as [|y xs IH]; intros s Hs; [done|]. simpl.
  pose proof (HP y s (or_introl eq_refl) Hs) as Hy.
  destruct Hx as [->|Hx].
  - destruct (Hraise s Hs) as [e He].
    destruct (func x s) as [s1 o]. simpl in He. subst o.
    destruct (replay func xs s1). by exists e.
  - destruct (func y s) as [s1 [u|e]]; simpl in *.
    + destruct (IH (fun z s0 Hz => HP z s0 (or_intror Hz)) Hx s1 Hy) as [e He].
      destruct (replay func xs s1). by exists e.
    + destruct (replay func xs s1). by exists e.
Qed.

(** When [map] returns, [func] has been applied to the items, each once,
    in some order, and none of the applications raised. *)
Lemma map_returned cs n it s0 p :
  pool_inv func cs n it s0 p -> ready p = true -> map_get p = Ok tt ->
  Permutation (map fst (trace p)) it
  /\ first_raise (snd (replay func (map fst (trace p)) s0)) = None
  /\ shared p = fst (replay func (map fst (trace p)) s0).
Proof.
  intros Hinv Hready Hget.
  pose proof (inv_replay _ _ _ _ _ _ Hinv) as Hreplay.
  rewrite (map_get_first_raise _ _ _ _ _ _ Hinv) in Hget.
  assert (Hnone : first_raise (map snd (trace p)) = None)
    by (destruct (first_raise (map snd (trace p))); [discriminate|done]).
  split; [|by rewrite Hreplay].
  pose proof (ready_items _ _ _ _ _ _ Hinv Hready) as Hitems.
  rewrite (inv_skipped_success _ _ _ _ _ _ Hinv), app_nil_r in Hitems; [done|].
  apply (inv_success _ _ _ _ _ _ Hinv). by rewrite (inv_value _ _ _ _ _ _ Hinv).
Qed.

End Runs.

Section FleetFrames.

Lemma connect_keeps_static {B} (proj : World -> B) i :
  static proj -> keeps proj (_single_ssh_connect i).
Proof.
  intros (Ho & Hc & Hm) w. pose proof (connect_cases i w) as H. cbv zeta in H.
  destruct (connect_error (remote w) (public_ip_address i)); rewrite H;
    rewrite ?log_instance_eq; cbn [fst]; rewrite ?log_instance_eq; cbn [fst];
    repeat (first [rewrite Ho | rewrite Hc | rewrite Hm]); reflexivity.
Qed.

Lemma exec_keeps_static {B} (proj : World -> B) i command :
  static proj -> keeps proj (_single_ssh_exec i command).
Proof.
  intros (Ho & Hc & Hm) w. rewrite exec_cases.
  destruct (ssh_connections w !! id i) as [c|]; [|apply Ho].
  destruct (clients w !! c) as [[|h|]|]; try apply Ho.
  destruct (exec_outcome (remote w) h command); apply Ho.
Qed.

Lemma close_keeps_static {B} (proj : World -> B) i :
  static proj -> keeps proj (_single_ssh_close i).
Proof.
  intros (Ho & Hc & Hm) w. rewrite close_cases.
  destruct (ssh_connections w !! id i) as [c|]; cbn [fst]; [|apply Ho].
  by rewrite Ho, Hc.
Qed.

Lemma wrapper_keeps_static {B} (proj : World -> B) a :
  static proj -> keeps proj (_multi_args_wrapper a).
Proof.
  intros Hs. pose proof Hs as (Ho & _).
  destruct a as [i|i|i|i command|i]; cbn [_multi_args_wrapper].
  - unfold _single_install_deps.
    apply keeps_bind; [by apply keeps_log_instance|intros _].
    apply keeps_bind; [|intros _; by apply keeps_log_instance].
    apply keeps_for_each. intros. by apply exec_keeps_static.
  - unfold _single_install_core.
    apply keeps_bind; [by apply keeps_log_instance|intros _].
    apply keeps_bind; [|intros _; by apply keeps_log_instance].
    apply keeps_for_each. intros. by apply exec_keeps_static.
  - by apply connect_keeps_static.
  - by apply exec_keeps_static.
  - by apply close_keeps_static.
Qed.

(** The inventory, the network identifier, the region and the hosts. *)
Lemma surroundings_static :
  static (fun w => (inventory w, network_id w, aws_region w, remote w)).
Proof. repeat split. Qed.

Lemma appends_bind {A B} (m : M A) (k : A -> M B) :
  appends m -> (forall a, appends (k a)) -> appends (bind m k).
Proof.
  intros Hm Hk w. unfold bind. specialize (Hm w).
  destruct (m w) as [w1 [a|e]]; cbn [fst] in *; [|done].
  etrans; [exact Hm|apply Hk].
Qed.

Lemma appends_for_each {C} (body : C -> M unit) xs :
  (forall x, appends (body x)) -> appends (for_each xs body).
Proof.
  intros Hb. induction xs as [|x xs IH]; [by intros w|].
  cbn [for_each]. apply appends_bind; auto.
Qed.

Lemma appends_log_instance i m : appends (_log_instance i m).
Proof. intros w. rewrite log_instance_eq. by apply prefix_app_r. Qed.

Lemma appends_exec i command : appends (_single_ssh_exec i command).
Proof.
  intros w. rewrite exec_cases.
  destruct (ssh_connections w !! id i) as [c|]; [|by apply prefix_app_r].
  destruct (clients w !! c) as [[|h|]|]; try by apply prefix_app_r.
  destruct (exec_outcome (remote w) h command); by apply prefix_app_r.
Qed.

Lemma wrapper_appends a : appends (_multi_args_wrapper a).
Proof.
  destruct a as [i|i|i|i command|i]; cbn [_multi_args_wrapper].
  - unfold _single_install_deps.
    apply appends_bind; [apply appends_log_instance|intros _].
    apply appends_bind; [|intros _; apply appends_log_instance].
    apply appends_for_each. intros. apply appends_exec.
  - unfold _single_install_core.
    apply appends_bind; [apply appends_log_instance|intros _].
    apply appends_bind; [|intros _; apply appends_log_instance].
    apply appends_for_each. intros. apply appends_exec.
  - intros w. pose proof (connect_cases i w) as H. cbv zeta in H.
    destruct (connect_error (remote w) (public_ip_address i)); rewrite H; cbn [fst].
    + rewrite log_instance_eq. by apply prefix_app_r.
    + rewrite !log_instance_eq. cbn [fst stdout set_stdout set_ssh_connections set_clients].
      rewrite <- app_assoc. by apply prefix_app_r.
  - apply appends_exec.
  - intros w. rewrite close_cases.
    destruct (ssh_connections w !! id i); cbn [fst stdout set_stdout]; by apply prefix_app_r.
Qed.

End FleetFrames.

Section FleetRuns.

Lemma fleet_begin_shared op w :
  shared (fleet_begin op w) = set_stdout (stdout w ++ [opening op +:+ newline]) w.
Proof. reflexivity. Qed.

Lemma replay_keeps {A S} (func : A -> S -> S * result unit) (P : S -> Prop) xs s :
  (forall a s0, In a xs -> P s0 -> P (fst (func a s0))) ->
  P s -> P (fst (replay func xs s)).
Proof.
  revert s. induction xs as [|a xs IH]; intros s Hcall Hs; [done|].
  cbn [replay]. pose proof (Hcall a s (or_introl eq_refl) Hs) as Ha.
  destruct (func a s) as [s1 o]. cbn [fst] in Ha.
  specialize (IH s1 (fun b s0 Hb => Hcall b s0 (or_intror Hb)) Ha).
  by destruct (replay func xs s1).
Qed.

(** A property of the state that logging and every per-node call keep
    holds when a fleet operation ends, however it ends. *)
Lemma fleet_run_keeps (P : World -> Prop) op w w' r :
  (forall out w0, P w0 -> P (set_stdout out w0)) ->
  (forall a w0, In a (fleet_args op w) -> P w0 -> P (fst (_multi_args_wrapper a w0))) ->
  P w -> fleet_run op w (w', r) -> P w'.
Proof.
  intros Hlog Hcall Hw (p & Hreach & Hready & Hend).
  pose proof (fleet_inv op w p Hreach) as Hinv.
  assert (Hp : P (shared p)).
  { pose proof (inv_replay _ _ _ _ _ _ Hinv) as Hreplay.
    replace (shared p) with (fst (replay _multi_args_wrapper (map fst (trace p))
                                    (fst (_log (opening op) w)))) by (by rewrite Hreplay).
    apply replay_keeps; [|by apply Hlog].
    intros a s0 Ha. apply Hcall. by apply (trace_in_items _ _ _ _ _ _ _ Hinv). }
  unfold fleet_end in Hend. destruct (map_get p); injection Hend as <- <-; [|done].
  by apply Hlog.
Qed.

Lemma only_logs_bind {A B} (m : M A) (k : A -> M B) :
  only_logs m -> (forall a, only_logs (k a)) -> only_logs (bind m k).
Proof.
  intros Hm Hk w. unfold bind. destruct (Hm w) as [out Hout].
  destruct (m w) as [w1 [a|e]]; cbn [fst] in *; [|by exists out].
  destruct (Hk a w1) as [out' Hout']. exists out'. by rewrite Hout', Hout.
Qed.

Lemma only_logs_for_each {C} (body : C -> M unit) xs :
  (forall x, only_logs (body x)) -> only_logs (for_each xs body).
Proof.
  intros Hb. induction xs as [|x xs IH].
  - intros w. exists (stdout w). by destruct w.
  - cbn [for_each]. apply only_logs_bind; auto.
Qed.

Lemma only_logs_log_instance i m : only_logs (_log_instance i m).
Proof. intros w. eexists. by rewrite log_instance_eq. Qed.

Lemma only_logs_exec i command : only_logs (_single_ssh_exec i command).
Proof.
  intros w. rewrite exec_cases.
  destruct (ssh_connections w !! id i) as [c|]; [|by eexists].
  destruct (clients w !! c) as [[|h|]|]; try by eexists.
  destruct (exec_outcome (remote w) h command); by eexists.
Qed.

Lemma only_logs_wrapper a :
  (forall i, a <> args_ssh_connect i) -> (forall i, a <> args_ssh_close i) ->
  only_logs (_multi_args_wrapper a).
Proof.
  intros Hc Hcl. destruct a as [i|i|i|i command|i]; cbn [_multi_args_wrapper].
  - unfold _single_install_deps.
    apply only_logs_bind; [apply only_logs_log_instance|intros _].
    apply only_logs_bind; [|intros _; apply only_logs_log_instance].
    apply only_logs_for_each. intros. apply only_logs_exec.
  - unfold _single_install_core.
    apply only_logs_bind; [apply only_logs_log_instance|intros _].
    apply only_logs_bind; [|intros _; apply only_logs_log_instance].
    apply only_logs_for_each. intros. apply only_logs_exec.
  - by destruct (Hc i).
  - apply only_logs_exec.
  - by destruct (Hcl i).
Qed.

Lemma wrapper_keeps_sessions a :
  (forall i, a <> args_ssh_connect i) -> keeps ssh_connections (_multi_args_wrapper a).
Proof.
  intros Hc. destruct a as [i|i|i|i command|i]; cbn [_multi_args_wrapper].
  - apply install_deps_keeps_sessions.
  - apply install_core_keeps_sessions.
  - by destruct (Hc i).
  - apply exec_keeps_sessions.
  - apply close_keeps_sessions.
Qed.

Lemma fleet_args_inv op w a :
  In a (fleet_args op w) -> exists i, In i (_get_running_instances w) /\ a = args_for op i.
Proof.
  unfold fleet_args. rewrite in_map_iff. intros (i & <- & Hi). by exists i.
Qed.

End FleetRuns.

Section FleetOutcomes.

(** A fleet operation whose per-node calls all return, under a property
    they keep, returns. *)
Lemma fleet_run_none_raises (P : World -> Prop) op w out :
  P (fst (_log (opening op) w)) ->
  (forall a s, In a (fleet_args op w) -> P s ->
     P (fst (_multi_args_wrapper a s)) /\ snd (_multi_args_wrapper a s) = Ok tt) ->
  fleet_run op w out -> snd out = Ok tt.
Proof.
  intros H0 Hcall (p & Hreach & Hready & <-).
  pose proof (fleet_inv op w p Hreach) as Hinv.
  pose proof (inv_replay _ _ _ _ _ _ Hinv) as Hreplay.
  destruct (replay_none_raises _multi_args_wrapper P (map fst (trace p))
              (fst (_log (opening op) w))) as [Hnone _]; [|done|].
  { intros a s Ha. apply Hcall. by apply (trace_in_items _ _ _ _ _ _ _ Hinv). }
  rewrite Hreplay in Hnone. cbn [snd] in Hnone.
  unfold fleet_end. by rewrite (map_get_first_raise _ _ _ _ _ _ Hinv), Hnone.
Qed.

(** A fleet operation one of whose per-node calls raises, under a
    property the calls keep, raises. *)
Lemma fleet_run_some_raises (P : World -> Prop) op w out a :
  P (fst (_log (opening op) w)) ->
  (forall b s, In b (fleet_args op w) -> P s -> P (fst (_multi_args_wrapper b s))) ->
  In a (fleet_args op w) ->
  (forall s, P s -> exists e, snd (_multi_args_wrapper a s) = Raise e) ->
  fleet_run op w out -> exists e, snd out = Raise e.
Proof.
  intros H0 Hcall Ha Hraise (p & Hreach & Hready & <-).
  pose proof (fleet_inv op w p Hreach) as Hinv.
  unfold fleet_end. destruct (map_get p) as [[]|e] eqn:Hget; [|by exists e].
  exfalso.
  destruct (map_returned _ _ _ _ _ _ Hinv Hready Hget) as (Hperm & Hnone & _).
  destruct (replay_some_raises _multi_args_wrapper P (map fst (trace p))
              (fst (_log (opening op) w)) a) as [e He]; try done.
  - intros b s Hb. apply Hcall. by apply (trace_in_items _ _ _ _ _ _ _ Hinv).
  - apply list_elem_of_In. rewrite Hperm. by apply list_elem_of_In.
  - congruence.
Qed.

Lemma wrapper_without_session a s :
  (forall i, a <> args_ssh_connect i) ->
  ssh_connections s !! id (args_instance a) = None ->
  snd (_multi_args_wrapper a s) = Raise (KeyError (id (args_instance a))).
Proof.
  intros Hnc H. destruct a as [i|i|i|i command|i]; cbn [_multi_args_wrapper args_instance] in *.
  - rewrite install_deps_unfold. unfold install_deps_commands.
    by rewrite for_each_exec_without_session.
  - rewrite install_core_unfold. unfold install_core_commands.
    by rewrite for_each_exec_without_session.
  - by destruct (Hnc i).
  - by rewrite exec_cases, H.
  - by rewrite close_cases, H.
Qed.

Lemma connect_ok_world k s s1 :
  _single_ssh_connect k s = (s1, Ok tt) ->
  ssh_connections s1 = <[id k := length (clients s)]> (ssh_connections s)
  /\ clients s1 = clients s ++ [Connected (public_ip_address k)].
Proof.
  intros H. pose proof (connect_cases k s) as Hc. cbv zeta in Hc.
  destruct (connect_error (remote s) (public_ip_address k)); rewrite Hc in H;
    [discriminate|]. by injection H as <-.
Qed.

Lemma connect_ok_session k s s1 i h :
  _single_ssh_connect k s = (s1, Ok tt) ->
  (id k = id i -> connected_session s1 i (public_ip_address k))
  /\ (id k <> id i -> connected_session s i h -> connected_session s1 i h).
Proof.
  intros H. destruct (connect_ok_world k s s1 H) as [Hm Hc]. split.
  - intros Heq. exists (length (clients s)). rewrite Hm, Hc, <- Heq. split.
    + apply lookup_insert_eq.
    + rewrite lookup_app_r by lia. by rewrite Nat.sub_diag.
  - intros Hne (c & Hl & Hcl). exists c. rewrite Hm, Hc. split.
    + by rewrite lookup_insert_ne.
    + by apply lookup_app_l_Some.
Qed.

(** Connect calls that all return leave a connected session for every
    instance they were made on, and keep the ones that were there. *)
Lemma replay_connects (R : list Instance) xs s i :
  (forall x, In x xs -> exists k, In k R /\ x = args_ssh_connect k) ->
  first_raise (snd (replay _multi_args_wrapper xs s)) = None ->
  In (args_ssh_connect i) xs
  \/ (exists j, In j R /\ id j = id i /\ connected_session s i (public_ip_address j)) ->
  exists j, In j R /\ id j = id i
            /\ connected_session (fst (replay _multi_args_wrapper xs s)) i (public_ip_address j).
Proof.
  revert s. induction xs as [|x xs IH]; intros s Hxs Hnone Hi.
  - destruct Hi as [[]|Hi]. exact Hi.
  - destruct (Hxs x (or_introl eq_refl)) as (k & Hk & ->).
    cbn [replay] in *. cbn [_multi_args_wrapper] in *.
    destruct (_single_ssh_connect k s) as [s1 o] eqn:Hcon.
    specialize (IH s1 (fun y Hy => Hxs y (or_intror Hy))).
    destruct (replay _multi_args_wrapper xs s1) as [s2 os] eqn:Hrep.
    cbn [fst snd first_raise] in *.
    destruct o as [[]|e]; [|discriminate].
    apply IH; [done|].
    destruct (connect_ok_session k s s1 i (public_ip_address k) Hcon) as [Hsame _].
    destruct (decide (id k = id i)) as [Heq|Hne].
    { right. exists k. auto. }
    destruct Hi as [[Hx|Hx]|(j & Hj & Hid & Hs)].
    + injection Hx as ->. done.
    + by left.
    + right. exists j. split; [done|]. split; [done|].
      by apply (proj2 (connect_ok_session k s s1 i (public_ip_address j) Hcon)).
Qed.

Lemma NoDup_map_inj {B C} (f : B -> C) (l : list B) a b :
  NoDup (map f l) -> In a l -> In b l -> f a = f b -> a = b.
Proof.
  induction l as [|x l IH]; intros Hnd Ha Hb Hf; [done|].
  cbn [map] in Hnd. apply NoDup_cons in Hnd as [Hx Hnd].
  destruct Ha as [->|Ha], Hb as [->|Hb]; auto.
  - exfalso. apply Hx, list_elem_of_In. rewrite Hf. by apply in_map.
  - exfalso. apply Hx, list_elem_of_In. rewrite <- Hf. by apply in_map.
Qed.

Lemma connected_session_log out w i h :
  connected_session w i h -> connected_session (set_stdout out w) i h.
Proof. intros (c & ? & ?). by exists c. Qed.

(** What a run of [ssh_connect] that returned has established. *)
Lemma ssh_connect_returned w w' i :
  fleet_run ssh_connect w (w', Ok tt) ->
  In i (_get_running_instances w) ->
  exists j, In j (_get_running_instances w) /\ id j = id i
            /\ connected_session w' i (public_ip_address j).
Proof.
  intros (p & Hreach & Hready & Hend) Hi.
  pose proof (fleet_inv ssh_connect w p Hreach) as Hinv.
  unfold fleet_end in Hend. destruct (map_get p) as [[]|e] eqn:Hget; [|discriminate].
  injection Hend as <-.
  destruct (map_returned _ _ _ _ _ _ Hinv Hready Hget) as (Hperm & Hnone & Hshared).
  destruct (replay_connects (_get_running_instances w) (map fst (trace p))
              (fst (_log (opening ssh_connect) w)) i) as (j & Hj & Hid & Hs); try done.
  - intros x Hx. apply (trace_in_items _ _ _ _ _ _ _ Hinv) in Hx.
    apply fleet_args_inv in Hx as (k & Hk & ->). by exists k.
  - left. apply list_elem_of_In. rewrite Hperm. apply list_elem_of_In.
    unfold fleet_args. by apply (in_map (args_for ssh_connect)).
  - exists j. split; [done|]. split; [done|].
    rewrite <- Hshared in Hs. by apply connected_session_log.
Qed.

Lemma fleet_run_surroundings op w w' r :
  fleet_run op w (w', r) ->
  (inventory w', network_id w', aws_region w', remote w')
  = (inventory w, network_id w, aws_region w, remote w).
Proof.
  intros Hrun.
  apply (fleet_run_keeps
           (fun s => (inventory s, network_id s, aws_region s, remote s)
                     = (inventory w, network_id w, aws_region w, remote w))
           op w w' r); [done| |done|done].
  intros a w0 _ <-. apply (wrapper_keeps_static _ a surroundings_static).
Qed.

End FleetOutcomes.

(** X8.  When [ssh_connect] returns, every running instance of the
    network has an entry in the mapping whose client is connected, to the
    public address of a running instance with the same identifier; when
    the identifiers are distinct, to its own address. *)
Theorem ssh_connect_connects_every_node w w' i :
  fleet_run ssh_connect w (w', Ok tt) ->
  In i (_get_running_instances w) ->
  (exists j, In j (_get_running_instances w) /\ id j = id i
             /\ connected_session w' i (public_ip_address j))
  /\ (NoDup (map id (_get_running_instances w)) ->
      connected_session w' i (public_ip_address i)).
Proof.
  intros Hrun Hi. pose proof (ssh_connect_returned w w' i Hrun Hi) as (j & Hj & Hid & Hs).
  split; [by exists j|].
  intros Hnd. pose proof (NoDup_map_inj id _ j i Hnd Hj Hi Hid) as Heq. by subst j.
Qed.

Lemma ssh_connect_connects_every_node_witness :
  connected_session demo_connected node_b "10.0.0.2".
Proof.
  assert (Hrun : fleet_run ssh_connect demo_world (demo_connected, Ok tt)).
  { exists demo_connect_run. split; [apply rtc_run_schedule|]. split; vm_compute; reflexivity. }
  assert (Hin : In node_b (_get_running_instances demo_world)) by (vm_compute; auto).
  destruct (ssh_connect_connects_every_node demo_world demo_connected node_b Hrun Hin)
    as [_ H].
  apply H. apply (bool_decide_unpack _). vm_compute. exact I.
Defined.

(** X10.  [ssh_exec], [ssh_close], [install_deps] and [install_core] need
    a session on every node: if some running instance has no entry in the
    mapping, the operation raises, in every interleaving and whatever the
    number of nodes; it never returns. *)
Theorem fleet_operation_needs_sessions op w i out :
  op <> ssh_connect ->
  In i (_get_running_instances w) ->
  ssh_connections w !! id i = None ->
  fleet_run op w out ->
  exists e, snd out = Raise e.
Proof.
  intros Hop Hi Hnone Hrun.
  apply (fleet_run_some_raises (fun s => ssh_connections s = ssh_connections w)
           op w out (args_for op i)); try done.
  - intros b s Hb <-. apply fleet_args_inv in Hb as (k & _ & ->).
    apply wrapper_keeps_sessions. intros j. by destruct op.
  - unfold fleet_args. by apply in_map.
  - intros s Hs. exists (KeyError (id (args_instance (args_for op i)))).
    apply wrapper_without_session; [intros j; by destruct op|].
    rewrite Hs. by destruct op.
Qed.

Lemma fleet_operation_needs_sessions_witness :
  exists e, snd (fleet_end (ssh_exec "uptime") demo_early_run) = Raise e.
Proof.
  apply (fleet_operation_needs_sessions (ssh_exec "uptime") demo_world node_a).
  - discriminate.
  - vm_compute. auto.
  - reflexivity.
  - exists demo_early_run. split; [apply rtc_run_schedule|]. split; [vm_compute|]; reflexivity.
Defined.

Section Closing.

Lemma sessions_exist_log out w : sessions_exist w -> sessions_exist (set_stdout out w).
Proof. intros H k c. apply H. Qed.

Lemma wrapper_keeps_sessions_exist a s :
  sessions_exist s -> sessions_exist (fst (_multi_args_wrapper a s)).
Proof.
  intros Hs.
  assert (Hlogs : (forall i, a <> args_ssh_connect i) -> (forall i, a <> args_ssh_close i) ->
                  sessions_exist (fst (_multi_args_wrapper a s))).
  { intros Hnc Hncl. destruct (only_logs_wrapper a Hnc Hncl s) as [out ->].
    by apply sessions_exist_log. }
  destruct a as [i|i|i|i command|i]; try (apply Hlogs; intros; discriminate).
  - cbn [_multi_args_wrapper]. pose proof (connect_cases i s) as H. cbv zeta in H.
    destruct (connect_error (remote s) (public_ip_address i)); rewrite H; cbn [fst];
      intros k c; rewrite ?log_instance_eq;
      cbn [fst ssh_connections clients set_stdout set_clients set_ssh_connections];
      rewrite length_app; cbn [length].
    + intros Hk. specialize (Hs k c Hk). lia.
    + destruct (decide (id i = k)) as [<-|Hne].
      * rewrite lookup_insert_eq. intros [= <-]. lia.
      * rewrite lookup_insert_ne by done. intros Hk. specialize (Hs k c Hk). lia.
  - cbn [_multi_args_wrapper]. rewrite close_cases.
    destruct (ssh_connections s !! id i) as [ci|]; cbn [fst]; [|by apply sessions_exist_log].
    intros k c. cbn [ssh_connections clients set_stdout set_clients].
    rewrite length_insert. apply Hs.
Qed.

Lemma fleet_run_sessions_exist op w w' r :
  sessions_exist w -> fleet_run op w (w', r) -> sessions_exist w'.
Proof.
  intros Hw. apply (fleet_run_keeps sessions_exist op w w' r); [|
    intros a w0 _; apply wrapper_keeps_sessions_exist|done].
  intros out w0. apply sessions_exist_log.
Qed.

Lemma closed_session_log out w i :
  closed_session w i -> closed_session (set_stdout out w) i.
Proof. intros (c & ? & ?). by exists c. Qed.

(** Close calls that all return leave a closed session for every instance
    they were made on, and keep the closed ones closed. *)
Lemma replay_closes xs s i :
  (forall x, In x xs -> exists k, x = args_ssh_close k) ->
  sessions_exist s ->
  first_raise (snd (replay _multi_args_wrapper xs s)) = None ->
  In (args_ssh_close i) xs \/ closed_session s i ->
  closed_session (fst (replay _multi_args_wrapper xs s)) i.
Proof.
  revert s. induction xs as [|x xs IH]; intros s Hxs Hex Hnone Hi.
  - destruct Hi as [[]|Hi]. exact Hi.
  - destruct (Hxs x (or_introl eq_refl)) as (k & ->).
    pose proof (wrapper_keeps_sessions_exist (args_ssh_close k) s Hex) as Hex1.
    cbn [replay] in *. cbn [_multi_args_wrapper] in *.
    rewrite close_cases in *.
    destruct (ssh_connections s !! id k) as [ck|] eqn:Hk.
    2:{ destruct (replay _multi_args_wrapper xs _); discriminate. }
    match goal with |- context [replay _ xs ?s1] =>
      specialize (IH s1 (fun y Hy => Hxs y (or_intror Hy)) Hex1) end.
    cbn [fst] in *.
    destruct (replay _multi_args_wrapper xs _) as [s2 os] eqn:Hrep.
    cbn [fst snd first_raise] in *.
    apply IH; [done|].
    destruct Hi as [[Hx|Hx]|(c & Hc & Hcl)].
    + injection Hx as ->. right. exists ck. split; [exact Hk|].
      cbn [clients set_stdout set_clients]. apply list_lookup_insert_eq. by apply (Hex (id i)).
    + by left.
    + right. exists c. split; [exact Hc|]. cbn [clients set_stdout set_clients].
      destruct (decide (ck = c)) as [->|Hne].
      * apply list_lookup_insert_eq. by eapply lookup_lt_Some.
      * by rewrite list_lookup_insert_ne.
Qed.

Lemma ssh_close_returned w w' i :
  sessions_exist w ->
  fleet_run ssh_close w (w', Ok tt) ->
  In i (_get_running_instances w) ->
  closed_session w' i.
Proof.
  intros Hex (p & Hreach & Hready & Hend) Hi.
  pose proof (fleet_inv ssh_close w p Hreach) as Hinv.
  unfold fleet_end in Hend. destruct (map_get p) as [[]|e] eqn:Hget; [|discriminate].
  injection Hend as <-.
  destruct (map_returned _ _ _ _ _ _ Hinv Hready Hget) as (Hperm & Hnone & Hshared).
  assert (Hc : closed_session (shared p) i);
    [|destruct Hc as (c & ? & ?); by exists c].
  rewrite Hshared. apply replay_closes; try done.
  - intros x Hx. apply (trace_in_items _ _ _ _ _ _ _ Hinv) in Hx.
    apply fleet_args_inv in Hx as (k & _ & ->). by exists k.
  - left. apply list_elem_of_In. rewrite Hperm. apply list_elem_of_In.
    unfold fleet_args. by apply (in_map (args_for ssh_close)).
Qed.

Lemma sessions_exist_init net_id region inv r : sessions_exist (__init__ net_id region inv r).
Proof. intros k c. cbn. by rewrite lookup_empty. Qed.

End Closing.

(** X12.  When [ssh_close] returns, the session of every running instance
    is closed, and its entry is still in the mapping.  A later [ssh_exec]
    therefore finds closed clients: as soon as one instance is running it
    raises, in every interleaving. *)
Theorem ssh_close_closes_every_session w w' i :
  sessions_exist w ->
  fleet_run ssh_close w (w', Ok tt) ->
  In i (_get_running_instances w) ->
  closed_session w' i
  /\ forall command out, fleet_run (ssh_exec command) w' out -> exists e, snd out = Raise e.
Proof.
  intros Hex Hrun Hi. pose proof (ssh_close_returned w w' i Hex Hrun Hi) as Hclosed.
  split; [exact Hclosed|]. intros command out Hexec.
  pose proof (fleet_run_surroundings _ _ _ _ Hrun) as Hsur. injection Hsur as Hinv Hn _ _.
  assert (Hsame : _get_running_instances w' = _get_running_instances w).
  { unfold _get_running_instances, running_filters. by rewrite Hinv, Hn. }
  apply (fleet_run_some_raises (fun s => exists outl, s = set_stdout outl w')
           (ssh_exec command) w' out (args_ssh_exec i command)); try done.
  - by eexists.
  - intros b s Hb [o0 ->]. apply fleet_args_inv in Hb as (k & _ & ->).
    destruct (only_logs_exec k command (set_stdout o0 w')) as [o Ho].
    exists o. cbn [args_for _multi_args_wrapper]. by rewrite Ho.
  - unfold fleet_args. rewrite Hsame. by apply (in_map (args_for (ssh_exec command))).
  - intros s [o0 ->]. destruct Hclosed as (c & Hc & Hcl).
    eexists. cbn [_multi_args_wrapper]. rewrite exec_cases.
    cbn [ssh_connections clients set_stdout]. by rewrite Hc, Hcl.
Qed.

Lemma ssh_close_closes_every_session_witness :
  closed_session demo_closed node_a.
Proof.
  assert (Hcon : fleet_run ssh_connect demo_world (demo_connected, Ok tt)).
  { exists demo_connect_run. split; [apply rtc_run_schedule|]. split; vm_compute; reflexivity. }
  assert (Hex : sessions_exist demo_connected).
  { apply (fleet_run_sessions_exist ssh_connect demo_world demo_connected (Ok tt));
      [apply sessions_exist_init|exact Hcon]. }
  assert (Hrun : fleet_run ssh_close demo_connected (demo_closed, Ok tt)).
  { exists demo_close_run. split; [apply rtc_run_schedule|]. split; vm_compute; reflexivity. }
  assert (Hin : In node_a (_get_running_instances demo_connected)) by (vm_compute; auto).
  exact (proj1 (ssh_close_closes_every_session demo_connected demo_closed node_a Hex Hrun Hin)).
Defined.

(** X13.  [launch] looks the image of the region up before it asks EC2
    for anything: in a region that [_jessie_mapping] does not list it
    raises [KeyError] for the region after its first log line, whatever
    the count, and the inventory is as it was.  A launch that returned was
    in a listed region. *)
Theorem launch_needs_a_listed_region count key_name w :
  (assoc (aws_region w) _jessie_mapping = None ->
   launch count key_name w =
   (set_stdout (stdout w ++ [("Launching " +:+ pretty count +:+ " instances...") +:+ newline]) w,
    Raise (KeyError (aws_region w))))
  /\ (snd (launch count key_name w) = Ok tt ->
      exists image, assoc (aws_region w) _jessie_mapping = Some image).
Proof.
  pose proof (launch_cases count key_name w) as H. cbv zeta in H.
  destruct (assoc (aws_region w) _jessie_mapping) as [image|].
  - split; [done|]. by exists image.
  - rewrite H. split; [reflexivity|discriminate].
Qed.

Lemma launch_needs_a_listed_region_witness :
  snd (launch 3 "key" antarctic_world) = Raise (KeyError "aq-south-1")
  /\ inventory (fst (launch 3 "key" antarctic_world)) = inventory antarctic_world.
Proof.
  destruct (launch_needs_a_listed_region 3 "key" antarctic_world) as [H _].
  rewrite (H eq_refl). split; reflexivity.
Defined.

(** X16.  [ssh_connect] raises, in every interleaving, as soon as the host
    of one running instance refuses the connection; it never returns
    then. *)
Theorem ssh_connect_raises_if_a_host_refuses w i e out :
  In i (_get_running_instances w) ->
  connect_error (remote w) (public_ip_address i) = Some e ->
  fleet_run ssh_connect w out ->
  exists e', snd out = Raise e'.
Proof.
  intros Hi He Hrun.
  apply (fleet_run_some_raises (fun s => remote s = remote w)
           ssh_connect w out (args_ssh_connect i)); try done.
  - intros b s _ <-. apply (wrapper_keeps_static remote b). by repeat split.
  - unfold fleet_args. by apply (in_map (args_for ssh_connect)).
  - intros s Hs. exists e. cbn [_multi_args_wrapper].
    pose proof (connect_cases i s) as H. cbv zeta in H. rewrite Hs, He in H.
    by rewrite H.
Qed.

Lemma ssh_connect_raises_if_a_host_refuses_witness :
  exists e', snd (fleet_end ssh_connect stubborn_run) = Raise e'.
Proof.
  apply (ssh_connect_raises_if_a_host_refuses stubborn_world node_b (SSHException "timed out")).
  - vm_compute. auto.
  - reflexivity.
  - exists stubborn_run. split; [apply rtc_run_schedule|]. split; [vm_compute|]; reflexivity.
Defined.

(** * What becomes of the chunks *)

Section Chunks.
Context {A S : Type}.
Variable func : A -> S -> S * result unit.

Lemma map_async_chunk_inv processes (it : list A) (s0 : S) :
  chunk_inv (taskqueue (map_async processes it s0)) (map_async processes it s0).
Proof.
  split; cbn [map_async taskqueue workers trace skipped].
  - auto.
  - intros rest H. apply list_elem_of_In, elem_of_replicate in H as [H _]. discriminate.
  - intros y [].
  - intros c Hc. by left.
Qed.

Lemma step_chunk_inv chunks p p' :
  chunk_inv chunks p -> step func p p' -> chunk_inv chunks p'.
Proof.
  intros [Hq Hw Hs Hc] [k Hk]. unfold worker_step in Hk.
  destruct (workers p !! k) as [o|] eqn:Hwk; [|done].
  destruct (workers_split _ _ _ Hwk) as (l1 & l2 & Heq & Hins).
  assert (Hold : forall o', In o' (workers p) <-> In o' l1 \/ o' = o \/ In o' l2).
  { intros o'. rewrite Heq, in_app_iff. cbn [In]. intuition. }
  assert (Hnew : forall o0 o', In o' (<[k := o0]> (workers p))
                               <-> In o' l1 \/ o' = o0 \/ In o' l2).
  { intros o0 o'. rewrite Hins, in_app_iff. cbn [In]. intuition. }
  destruct o as [[|x rest0]|].
  - (* the worker reports a finished chunk *)
    injection Hk as <-. split; cbn [taskqueue workers trace skipped].
    + exact Hq.
    + intros rest Hr. apply Hnew in Hr as [Hr|[Hr|Hr]]; [|discriminate|];
        apply Hw, Hold; auto.
    + exact Hs.
    + intros c Hin. destruct (Hc c Hin) as [H|[(done & rest & -> & Hr & Hd)|[H|H]]]; auto.
      apply Hold in Hr as [Hr|[[= ->]|Hr]].
      * right. left. exists done, rest. repeat split; auto. apply Hnew; auto.
      * right. right. left. unfold chunk_done. rewrite app_nil_r.
        exact Hd.
      * right. left. exists done, rest. repeat split; auto. apply Hnew; auto.
  - destruct (func x (shared p)) as [s' [[]|e]]; injection Hk as <-.
    + (* the call returns *)
      assert (Hmono : forall t, In t (trace p) -> In t (trace p ++ [(x, Ok tt)]))
        by (intros t Ht; apply in_app_iff; auto).
      assert (HmonoF : forall l, Forall (fun y => In (y, Ok tt) (trace p)) l ->
                                 Forall (fun y => In (y, Ok tt) (trace p ++ [(x, Ok tt)])) l)
        by (intros l Hl; eapply Forall_impl; [exact Hl|]; cbn; auto).
      split; cbn [taskqueue workers trace skipped].
      * exact Hq.
      * intros rest Hr. apply Hnew in Hr as [Hr|[[= ->]|Hr]].
        -- destruct (Hw rest) as (c & done & ? & ? & ?); [apply Hold; auto|].
           exists c, done. auto.
        -- destruct (Hw (x :: rest0)) as (c & done & Hin & -> & Hd); [apply Hold; auto|].
           exists (done ++ x :: rest0), (done ++ [x]). split; [done|].
           split; [by rewrite <- app_assoc|].
           apply Forall_app. split; [auto|]. constructor; [|constructor].
           apply in_app_iff. right. by left.
        -- destruct (Hw rest) as (c & done & ? & ? & ?); [apply Hold; auto|].
           exists c, done. auto.
      * intros y Hy. destruct (Hs y Hy) as (c & pre & x0 & e & post & ? & ? & ? & ?).
        exists c, pre, x0, e, post. auto.
      * intros c Hin.
        destruct (Hc c Hin) as [H|[(done & rest & -> & Hr & Hd)|[H|H]]]; auto.
        -- apply Hold in Hr as [Hr|[[= ->]|Hr]].
           ++ right. left. exists done, rest. repeat split; auto. apply Hnew; auto.
           ++ right. left. exists (done ++ [x]), rest0.
              split; [by rewrite <- app_assoc|]. split; [apply Hnew; auto|].
              apply Forall_app. split; [auto|]. constructor; [|constructor].
              apply in_app_iff. right. by left.
           ++ right. left. exists done, rest. repeat split; auto. apply Hnew; auto.
        -- right. right. left. by apply HmonoF.
        -- right. right. right. destruct H as (pre & x0 & e & post & ? & ? & ? & ?).
           exists pre, x0, e, post. auto.
    + (* the call raises *)
      assert (Hmono : forall t, In t (trace p) -> In t (trace p ++ [(x, Raise e)]))
        by (intros t Ht; apply in_app_iff; auto).
      assert (HmonoF : forall l, Forall (fun y => In (y, Ok tt) (trace p)) l ->
                                 Forall (fun y => In (y, Ok tt) (trace p ++ [(x, Raise e)])) l)
        by (intros l Hl; eapply Forall_impl; [exact Hl|]; cbn; auto).
      assert (HmonoS : forall l, Forall (fun y => In y (skipped p)) l ->
                                 Forall (fun y => In y (skipped p ++ rest0)) l).
      { intros l Hl. eapply Forall_impl; [exact Hl|]. cbn. intros y Hy.
        apply in_app_iff. auto. }
      split; cbn [taskqueue workers trace skipped].
      * exact Hq.
      * intros rest Hr. apply Hnew in Hr as [Hr|[Hr|Hr]]; [|discriminate|];
          (destruct (Hw rest) as (c & done & ? & ? & ?); [apply Hold; auto|]);
          exists c, done; auto.
      * intros y Hy. apply in_app_iff in Hy as [Hy|Hy].
        -- destruct (Hs y Hy) as (c & pre & x0 & e0 & post & ? & ? & ? & ?).
           exists c, pre, x0, e0, post. auto.
        -- destruct (Hw (x :: rest0)) as (c & done & Hin & -> & Hd); [apply Hold; auto|].
           exists (done ++ x :: rest0), done, x, e, rest0. repeat split; auto.
           apply in_app_iff. right. by left.
      * intros c Hin.
        destruct (Hc c Hin) as [H|[(done & rest & -> & Hr & Hd)|[H|H]]]; auto.
        -- apply Hold in Hr as [Hr|[[= ->]|Hr]].
           ++ right. left. exists done, rest. repeat split; auto. apply Hnew; auto.
           ++ right. right. right. exists done, x, e, rest0. repeat split; auto.
              ** apply in_app_iff. right. by left.
              ** apply List.Forall_forall. intros y Hy. apply in_app_iff. auto.
           ++ right. left. exists done, rest. repeat split; auto. apply Hnew; auto.
        -- right. right. left. by apply HmonoF.
        -- right. right. right. destruct H as (pre & x0 & e0 & post & ? & ? & ? & ?).
           exists pre, x0, e0, post. auto.
  - (* an idle worker takes the next chunk *)
    destruct (taskqueue p) as [|c0 queue] eqn:Hqe; [done|]. injection Hk as <-.
    split; cbn [taskqueue workers trace skipped].
    + intros c Hin. apply Hq. by right.
    + intros rest Hr. apply Hnew in Hr as [Hr|[[= ->]|Hr]].
      * apply Hw, Hold; auto.
      * exists c0, []. split; [apply Hq; by left|]. split; [done|constructor].
      * apply Hw, Hold; auto.
    + exact Hs.
    + intros c Hin.
      destruct (Hc c Hin) as [[->|H]|[(done & rest & -> & Hr & Hd)|[H|H]]]; auto.
      * right. left. exists [], c. split; [done|]. split; [apply Hnew; auto|constructor].
      * right. left. exists done, rest. split; [done|]. split; [|done].
        apply Hold in Hr as [Hr|[Hr|Hr]]; [|discriminate|]; apply Hnew; auto.
Qed.

Lemma steps_chunk_inv chunks p p' :
  chunk_inv chunks p -> rtc (step func) p p' -> chunk_inv chunks p'.
Proof.
  intros H Hr. induction Hr as [|p p1 p2 Hstep _ IH]; [done|].
  apply IH. by apply (step_chunk_inv chunks p).
Qed.

(** When [map] is ready every chunk has been run, to its end or to its
    first failing item, and every dropped item lies behind a failing item
    of its chunk. *)
Lemma ready_chunks cs n (it : list A) (s0 : S) p :
  rtc (step func) (map_async n it s0) p ->
  pool_inv func cs n it s0 p ->
  ready p = true ->
  (forall c, In c (taskqueue (map_async n it s0)) -> chunk_done p c \/ chunk_failed p c)
  /\ (forall y, In y (skipped p) ->
        exists c pre x e post,
          In c (taskqueue (map_async n it s0)) /\ c = pre ++ x :: post
          /\ In (x, Raise e) (trace p) /\ In y post).
Proof.
  intros Hreach Hinv Hready.
  pose proof (steps_chunk_inv _ _ _ (map_async_chunk_inv n it s0) Hreach) as [Hq Hw Hs Hc].
  destruct (ready_at_rest _ _ _ _ _ _ Hinv Hready) as (Hqe & Hb & _ & _).
  split; [|exact Hs].
  intros c Hin. destruct (Hc c Hin) as [H|[(done & rest & _ & Hr & _)|H]]; [| |exact H].
  - rewrite Hqe in H. destruct H.
  - exfalso. apply list_elem_of_In, list_elem_of_lookup in Hr as [k Hk].
    by pose proof (busy_zero_all_idle _ _ _ Hb Hk).
Qed.

End Chunks.

(** * The lines the per-node calls write *)

Section Lines.

Lemma writes_for_bind {A B} i (m : M A) (k : A -> M B) :
  writes_for i m -> (forall a, writes_for i (k a)) -> writes_for i (bind m k).
Proof.
  intros Hm Hk w. unfold bind. destruct (Hm w) as (l & Hl & HF).
  destruct (m w) as [w1 [a|e]]; cbn [fst] in *; [|by exists l].
  destruct (Hk a w1) as (l' & Hl' & HF'). exists (l ++ l').
  split; [by rewrite Hl', Hl, app_assoc|by apply Forall_app].
Qed.

Lemma writes_for_for_each {C} i (body : C -> M unit) xs :
  (forall x, writes_for i (body x)) -> writes_for i (for_each xs body).
Proof.
  intros Hb. induction xs as [|x xs IH].
  - intros w. exists []. split; [by rewrite app_nil_r|constructor].
  - cbn [for_each]. apply writes_for_bind; auto.
Qed.

Lemma writes_for_log_instance i m : writes_for i (_log_instance i m).
Proof.
  intros w. exists [instance_line i m]. rewrite log_instance_eq.
  split; [done|]. constructor; [by exists m|constructor].
Qed.

Lemma Forall_instance_lines i (f : string -> string) xs :
  Forall (fun x => exists message, x = instance_line i message)
    (map (fun m => instance_line i (f m)) xs).
Proof. induction xs as [|x xs IH]; constructor; [by eexists|done]. Qed.

Lemma writes_for_exec i command : writes_for i (_single_ssh_exec i command).
Proof.
  intros w. rewrite exec_cases.
  assert (H1 : Forall (fun x => exists message, x = instance_line i message)
                 [instance_line i ("Executing command: " +:+ command)])
    by (constructor; [by eexists|constructor]).
  destruct (ssh_connections w !! id i) as [c|]; [|by eexists].
  destruct (clients w !! c) as [[|h|]|]; try by eexists.
  destruct (exec_outcome (remote w) h command) as [out|e]; [|by eexists].
  eexists. split; [reflexivity|].
  repeat (apply Forall_app; split); try apply Forall_instance_lines; try done.
  constructor; [by eexists|constructor].
Qed.

Lemma writes_for_wrapper a : writes_for (args_instance a) (_multi_args_wrapper a).
Proof.
  destruct a as [i|i|i|i command|i]; cbn [_multi_args_wrapper args_instance].
  - unfold _single_install_deps.
    apply writes_for_bind; [apply writes_for_log_instance|intros _].
    apply writes_for_bind; [|intros _; apply writes_for_log_instance].
    apply writes_for_for_each. intros. apply writes_for_exec.
  - unfold _single_install_core.
    apply writes_for_bind; [apply writes_for_log_instance|intros _].
    apply writes_for_bind; [|intros _; apply writes_for_log_instance].
    apply writes_for_for_each. intros. apply writes_for_exec.
  - intros w. pose proof (connect_cases i w) as H. cbv zeta in H.
    destruct (connect_error (remote w) (public_ip_address i)); rewrite H;
      rewrite ?log_instance_eq;
      cbn [fst stdout set_stdout set_ssh_connections set_clients].
    + eexists. split; [reflexivity|]. constructor; [by eexists|constructor].
    + eexists. split; [by rewrite <- app_assoc|].
      constructor; [by eexists|]. constructor; [by eexists|constructor].
  - apply writes_for_exec.
  - intros w. rewrite close_cases.
    destruct (ssh_connections w !! id i); cbn [fst stdout set_stdout]; eexists;
      (split; [reflexivity|]); repeat (constructor; [by eexists|]); constructor.
Qed.

(** Every per-node call begins by writing its first line. *)
Lemma wrapper_first_line a w :
  exists more,
    stdout (fst (_multi_args_wrapper a w))
    = stdout w ++ instance_line (args_instance a) (first_message a) :: more.
Proof.
  assert (Hinstall : forall i (m : M unit) message,
    appends m ->
    exists more,
      stdout (fst (bind (_log_instance i message) (fun _ => m) w))
      = stdout w ++ instance_line i message :: more).
  { intros i m message Hm. unfold bind. rewrite log_instance_eq.
    destruct (Hm (set_stdout (stdout w ++ [instance_line i message]) w)) as [more Hmore].
    exists more. cbn [stdout set_stdout] in Hmore. by rewrite Hmore, <- app_assoc. }
  destruct a as [i|i|i|i command|i]; cbn [_multi_args_wrapper args_instance first_message].
  - apply Hinstall. apply appends_bind; [|intros _; apply appends_log_instance].
    apply appends_for_each. intros. apply appends_exec.
  - apply Hinstall. apply appends_bind; [|intros _; apply appends_log_instance].
    apply appends_for_each. intros. apply appends_exec.
  - pose proof (connect_cases i w) as H. cbv zeta in H.
    destruct (connect_error (remote w) (public_ip_address i)); rewrite H;
      rewrite ?log_instance_eq;
      cbn [fst stdout set_stdout set_ssh_connections set_clients].
    + by eexists.
    + eexists. by rewrite <- app_assoc.
  - rewrite exec_cases.
    destruct (ssh_connections w !! id i) as [c|]; [|by eexists].
    destruct (clients w !! c) as [[|h|]|]; try by eexists.
    destruct (exec_outcome (remote w) h command); by eexists.
  - rewrite close_cases.
    destruct (ssh_connections w !! id i); cbn [fst stdout set_stdout]; by eexists.
Qed.

(** After a sequence of calls the first line of each is in what they
    wrote. *)
Lemma replay_first_lines xs w :
  exists new,
    stdout (fst (replay _multi_args_wrapper xs w)) = stdout w ++ new
    /\ forall a, In a xs -> In (instance_line (args_instance a) (first_message a)) new.
Proof.
  revert w. induction xs as [|x xs IH]; intros w.
  - exists []. split; [by rewrite app_nil_r|intros a []].
  - cbn [replay]. destruct (wrapper_first_line x w) as [more Hmore].
    destruct (_multi_args_wrapper x w) as [w1 o]. cbn [fst] in Hmore.
    destruct (IH w1) as (new & Hnew & Hin).
    destruct (replay _multi_args_wrapper xs w1) as [w2 os]. cbn [fst] in *.
    exists ((instance_line (args_instance x) (first_message x) :: more) ++ new).
    split; [by rewrite Hnew, Hmore, <- app_assoc|].
    intros a [<-|Ha]; apply in_app_iff; [left; by left|right; auto].
Qed.

(** After a sequence of calls on instances of a list, what they wrote are
    lines of [_log_instance] for instances of the list. *)
Lemma replay_lines (R : list Instance) xs w :
  (forall a, In a xs -> In (args_instance a) R) ->
  exists new,
    stdout (fst (replay _multi_args_wrapper xs w)) = stdout w ++ new
    /\ Forall (fun l => exists i message, In i R /\ l = instance_line i message) new.
Proof.
  revert w. induction xs as [|x xs IH]; intros w HR.
  - exists []. split; [by rewrite app_nil_r|constructor].
  - cbn [replay]. destruct (writes_for_wrapper x w) as (l & Hl & HF).
    destruct (_multi_args_wrapper x w) as [w1 o]. cbn [fst] in Hl.
    destruct (IH w1 (fun a Ha => HR a (or_intror Ha))) as (new & Hnew & HFnew).
    destruct (replay _multi_args_wrapper xs w1) as [w2 os]. cbn [fst] in *.
    exists (l ++ new). split; [by rewrite Hnew, Hl, <- app_assoc|].
    apply Forall_app. split; [|done].
    eapply Forall_impl; [exact HF|]. cbn. intros y [message ->].
    exists (args_instance x), message. split; [apply HR; by left|done].
Qed.

Lemma instance_line_not_closing i message op :
  instance_line i message <> closing op +:+ newline.
Proof. unfold instance_line. destruct op; cbn; discriminate. Qed.

Lemma fleet_args_running op w a :
  In a (fleet_args op w) -> In (args_instance a) (_get_running_instances w).
Proof. intros Ha. apply fleet_args_inv in Ha as (i & Hi & ->). by destruct op. Qed.

(** What a sequence of calls on instances of a list writes: lines of
    [_log_instance] for instances of the list, the first line of each
    call among them. *)
Lemma replay_log (R : list Instance) xs w :
  (forall a, In a xs -> In (args_instance a) R) ->
  exists new,
    stdout (fst (replay _multi_args_wrapper xs w)) = stdout w ++ new
    /\ Forall (fun l => exists i message, In i R /\ l = instance_line i message) new
    /\ forall a, In a xs -> In (instance_line (args_instance a) (first_message a)) new.
Proof.
  intros HR. destruct (replay_lines R xs w HR) as (new & Hnew & HF).
  destruct (replay_first_lines xs w) as (new' & Hnew' & Hin).
  rewrite Hnew in Hnew'. apply app_inv_head in Hnew'. subst new'. by exists new.
Qed.

Lemma args_instance_args_for op i : args_instance (args_for op i) = i.
Proof. by destruct op. Qed.

(** The log of a fleet operation, however it ends. *)
Lemma fleet_run_lines op w w' r :
  fleet_run op w (w', r) ->
  exists middle,
    stdout w' = stdout w ++ [opening op +:+ newline] ++ middle
                ++ match r with
                   | Ok _ => [closing op +:+ newline]
                   | Raise _ => []
                   end
    /\ Forall (fun l => (exists i message,
                           In i (_get_running_instances w) /\ l = instance_line i message)
                        /\ l <> closing op +:+ newline) middle
    /\ (r = Ok tt ->
        forall i, In i (_get_running_instances w) ->
          In (instance_line i (first_message (args_for op i))) middle).
Proof.
  intros (p & Hreach & Hready & Hend).
  pose proof (fleet_inv op w p Hreach) as Hinv.
  pose proof (inv_replay _ _ _ _ _ _ Hinv) as Hreplay.
  destruct (replay_log (_get_running_instances w) (map fst (trace p))
              (fst (_log (opening op) w))) as (middle & Hmid & HF & Hfirst).
  { intros a Ha. apply fleet_args_running with (op := op).
    by apply (trace_in_items _ _ _ _ _ _ _ Hinv). }
  rewrite Hreplay in Hmid. cbn [fst _log _safe_print modify stdout set_stdout] in Hmid.
  exists middle. split; [|split].
  - unfold fleet_end in Hend. destruct (map_get p) as [[]|e]; injection Hend as <- <-.
    + cbn [fst _log _safe_print modify stdout set_stdout]. rewrite Hmid.
      by rewrite <- !app_assoc.
    + rewrite Hmid. by rewrite app_nil_r, <- !app_assoc.
  - eapply Forall_impl; [exact HF|]. cbn. intros l (i & message & Hi & ->).
    split; [by exists i, message|apply instance_line_not_closing].
  - intros -> i Hi.
    assert (Hget : map_get p = Ok tt).
    { unfold fleet_end in Hend. destruct (map_get p) as [[]|e]; [done|].
      by injection Hend. }
    destruct (map_returned _ _ _ _ _ _ Hinv Hready Hget) as (Hperm & _ & _).
    rewrite <- (args_instance_args_for op i) at 1. apply Hfirst.
    apply list_elem_of_In. rewrite Hperm. apply list_elem_of_In.
    unfold fleet_args. by apply in_map.
Qed.

End Lines.

(** * What a fleet operation has done when it ends *)

(** C1, amended.  When a per-node invocation raises, [pool.map] raises the
    first recorded exception in the caller once every task has reported:
    the fleet operation does not return and does not write its closing log
    line.  The failure does not cancel the other tasks: the chunks queued
    at the start hold the nodes, every chunk has been run to its end or to
    its first failing node, no node has been acted on twice, and a node
    has been left out only if it lies behind a failing node of its own
    chunk.  With at most [4 * threads] = 400 running nodes each chunk is
    one node, so every node has been acted on. *)
Theorem failure_reaches_the_caller op w p x e :
  rtc fleet_step (fleet_begin op w) p ->
  ready p = true ->
  In (x, Raise e) (trace p) ->
  (exists e0, first_raise (map snd (trace p)) = Some e0
              /\ fleet_end op p = (shared p, Raise e0))
  /\ stdout (fst (fleet_end op p)) = stdout (shared p)
  /\ Permutation (map fst (trace p) ++ skipped p) (fleet_args op w)
  /\ (length (_get_running_instances w) <= 4 * threads ->
      Permutation (map fst (trace p)) (fleet_args op w))
  /\ concat (taskqueue (fleet_begin op w)) = fleet_args op w
  /\ (forall c, In c (taskqueue (fleet_begin op w)) -> chunk_done p c \/ chunk_failed p c)
  /\ (forall y, In y (skipped p) ->
        exists c pre x0 e1 post,
          In c (taskqueue (fleet_begin op w)) /\ c = pre ++ x0 :: post
          /\ In (x0, Raise e1) (trace p) /\ In y post).
Proof.
  intros Hreach Hready Hin. pose proof (fleet_inv op w p Hreach) as Hinv.
  assert (Hraise : exists e0, first_raise (map snd (trace p)) = Some e0).
  { apply (first_raise_some _ e). apply in_map_iff. by exists (x, Raise e). }
  destruct Hraise as [e0 He0].
  assert (Hend : fleet_end op p = (shared p, Raise e0)).
  { unfold fleet_end. by rewrite (map_get_first_raise _ _ _ _ _ _ Hinv), He0. }
  split; [by exists e0|]. split; [by rewrite Hend|].
  pose proof (ready_items _ _ _ _ _ _ Hinv Hready) as Hitems.
  split; [exact Hitems|].
  split.
  { intros Hsmall.
    rewrite (inv_skipped_small _ _ _ _ _ _ Hinv), app_nil_r in Hitems; [done|].
    apply chunksize_of_small. unfold fleet_args. by rewrite length_map. }
  split.
  { rewrite fleet_begin_eq. unfold map_async. cbn [taskqueue]. apply get_tasks_concat. }
  rewrite fleet_begin_eq in Hreach |- *.
  apply (ready_chunks _multi_args_wrapper _ _ _ _ _ Hreach Hinv Hready).
Qed.

Lemma failure_reaches_the_caller_witness :
  let p := demo_early_run in
  ready p = true
  /\ fleet_end (ssh_exec "uptime") p = (shared p, Raise (KeyError "i-0a"))
  /\ Permutation (map fst (trace p)) (fleet_args (ssh_exec "uptime") demo_world).
Proof.
  intros p.
  assert (Hready : ready p = true) by (vm_compute; reflexivity).
  assert (Hin : In (args_ssh_exec node_a "uptime", Raise (KeyError "i-0a")) (trace p))
    by (vm_compute; left; reflexivity).
  destruct (failure_reaches_the_caller (ssh_exec "uptime") demo_world p _ _
              (rtc_run_schedule _ _ _) Hready Hin)
    as ((e0 & He0 & Hend) & _ & _ & Hall & _).
  split; [exact Hready|]. split.
  - rewrite Hend. f_equal. f_equal.
    assert (Hfirst : first_raise (map snd (trace p)) = Some (KeyError "i-0a"))
      by (vm_compute; reflexivity).
    congruence.
  - apply Hall. vm_compute. lia.
Defined.

(** C2 fails as stated: with 401 running nodes the chunks hold two nodes.
    No session is open, so the first node of each chunk raises [KeyError]
    and the second one is never acted on.  The call of [ssh_exec] is
    complete, [pool.map] is ready and raises in the caller, 201
    invocations have been made for 401 nodes, and the running node [i-1]
    has not been acted on: no invocation is recorded for it and its line
    is not in the log. *)
Lemma chunk_mates_are_skipped :
  rtc fleet_step (fleet_begin (ssh_exec "uptime") crowd_world) crowd_run
  /\ ready crowd_run = true
  /\ length (_get_running_instances crowd_world) = 401
  /\ In (crowd_node 1) (_get_running_instances crowd_world)
  /\ length (trace crowd_run) = 201
  /\ existsb (fun t => String.eqb (id (args_instance (fst t))) (id (crowd_node 1)))
       (trace crowd_run) = false
  /\ existsb (String.eqb (instance_line (crowd_node 1) "Executing command: uptime"))
       (stdout (shared crowd_run)) = false
  /\ snd (fleet_end (ssh_exec "uptime") crowd_run) = Raise (KeyError "i-0").
Proof.
  split; [apply rtc_run_schedule|].
  split; [vm_compute; reflexivity|].
  split; [vm_compute; reflexivity|].
  split; [vm_compute; right; left; reflexivity|].
  split; [vm_compute; reflexivity|].
  split; [vm_compute; reflexivity|].
  split; vm_compute; reflexivity.
Qed.

(** C2, amended.  A call of a fleet operation always drains: from every
    state it passes through, the workers reach a state where [pool.map] is
    ready.  No node is ever acted on twice: every argument tuple has been
    passed to the per-node operation, or dropped, or is queued, or is held
    by a worker.  Every invocation made so far has written its first line
    to the log, behind the opening line.  When [pool.map] is ready no task
    is queued and no worker holds one, so every invocation has finished.
    When the call then returns, or when there are at most [4 * threads] =
    400 running nodes, the per-node operation has been invoked exactly once
    per running node, in some order: the nodes acted on are the input
    nodes.  A call over more nodes that raises may have left nodes out. *)
Theorem dispatch_acts_once_per_node op w p :
  rtc fleet_step (fleet_begin op w) p ->
  (exists p', rtc fleet_step p p' /\ ready p' = true)
  /\ Permutation
       (map fst (trace p) ++ skipped p ++ concat (taskqueue p) ++ in_progress (workers p))
       (fleet_args op w)
  /\ (exists new,
        stdout (shared p) = stdout w ++ [opening op +:+ newline] ++ new
        /\ forall a, In a (map fst (trace p)) ->
             In (instance_line (args_instance a) (first_message a)) new)
  /\ (ready p = true ->
      taskqueue p = [] /\ busy (workers p) = 0
      /\ (map_get p = Ok tt <-> Forall (fun r => r = Ok tt) (map snd (trace p)))
      /\ (map_get p = Ok tt \/ length (_get_running_instances w) <= 4 * threads ->
          Permutation (map fst (trace p)) (fleet_args op w)
          /\ Permutation (map args_instance (map fst (trace p))) (_get_running_instances w)
          /\ length (trace p) = length (_get_running_instances w)
          /\ forall i, In i (_get_running_instances w) ->
               In (instance_line i (first_message (args_for op i))) (stdout (shared p)))).
Proof.
  intros Hreach. pose proof (fleet_inv op w p Hreach) as Hinv.
  split; [eapply drains; [apply threads_pos|exact Hinv]|].
  split; [symmetry; apply (inv_items _ _ _ _ _ _ Hinv)|].
  assert (Hlog : exists new,
            stdout (shared p) = stdout w ++ [opening op +:+ newline] ++ new
            /\ forall a, In a (map fst (trace p)) ->
                 In (instance_line (args_instance a) (first_message a)) new).
  { destruct (replay_first_lines (map fst (trace p)) (fst (_log (opening op) w)))
      as (new & Hnew & Hfirst).
    rewrite (inv_replay _ _ _ _ _ _ Hinv) in Hnew.
    cbn [fst _log _safe_print modify stdout set_stdout] in Hnew.
    exists new. split; [by rewrite Hnew, <- app_assoc|exact Hfirst]. }
  split; [exact Hlog|].
  intros Hready.
  destruct (ready_at_rest _ _ _ _ _ _ Hinv Hready) as (Hq & Hb & _ & _).
  split; [done|]. split; [done|].
  assert (Hok : map_get p = Ok tt <-> Forall (fun r => r = Ok tt) (map snd (trace p))).
  { rewrite (map_get_first_raise _ _ _ _ _ _ Hinv), <- first_raise_none.
    destruct (first_raise (map snd (trace p))); split; done. }
  split; [exact Hok|].
  intros Hcase.
  assert (Hperm : Permutation (map fst (trace p)) (fleet_args op w)).
  { destruct Hcase as [Hget|Hsmall].
    - apply (map_returned _ _ _ _ _ _ Hinv Hready Hget).
    - pose proof (ready_items _ _ _ _ _ _ Hinv Hready) as Hitems.
      rewrite (inv_skipped_small _ _ _ _ _ _ Hinv), app_nil_r in Hitems; [done|].
      apply chunksize_of_small. unfold fleet_args. by rewrite length_map. }
  split; [exact Hperm|].
  split; [by rewrite Hperm, fleet_args_instances|].
  split.
  { apply Permutation_length in Hperm. unfold fleet_args in Hperm.
    by rewrite !length_map in Hperm. }
  intros i Hi. destruct Hlog as (new & -> & Hfirst).
  apply in_app_iff. right. apply in_app_iff. right.
  rewrite <- (args_instance_args_for op i) at 1. apply Hfirst.
  apply list_elem_of_In. rewrite Hperm. apply list_elem_of_In.
  unfold fleet_args. by apply in_map.
Qed.

Lemma dispatch_acts_once_per_node_witness :
  let p := demo_connect_run in
  ready p = true
  /\ map_get p = Ok tt
  /\ Permutation (map args_instance (map fst (trace p))) [node_a; node_b]
  /\ In (instance_line node_b "Initiating SSH connection...") (stdout (shared p)).
Proof.
  intros p.
  destruct (dispatch_acts_once_per_node ssh_connect demo_world p
              (rtc_run_schedule _ _ _)) as (_ & _ & _ & H).
  assert (Hready : ready p = true) by (vm_compute; reflexivity).
  assert (Hget : map_get p = Ok tt) by (vm_compute; reflexivity).
  destruct (H Hready) as (_ & _ & _ & H').
  destruct (H' (or_introl Hget)) as (_ & Hnodes & _ & Hlines).
  split; [exact Hready|]. split; [exact Hget|]. split; [exact Hnodes|].
  apply (Hlines node_b). vm_compute. auto.
Defined.

(** * Further facts about the fleet operations and the collection actions *)

(** X6.  The log of a fleet operation is append-only and framed: what was
    written before stays, the opening line of the operation comes next,
    then lines of [_log_instance] for running instances of the network,
    none of which is the closing line, and the closing line is written
    last exactly when the operation returns; when it raises nothing
    follows the lines of the per-node calls.  When the operation returns,
    the first line of the per-node call of every running instance is among
    them. *)
Theorem fleet_run_log op w w' r :
  fleet_run op w (w', r) ->
  exists middle,
    stdout w' = stdout w ++ [opening op +:+ newline] ++ middle
                ++ match r with
                   | Ok _ => [closing op +:+ newline]
                   | Raise _ => []
                   end
    /\ Forall (fun l => (exists i message,
                           In i (_get_running_instances w) /\ l = instance_line i message)
                        /\ l <> closing op +:+ newline) middle
    /\ (r = Ok tt ->
        forall i, In i (_get_running_instances w) ->
          In (instance_line i (first_message (args_for op i))) middle).
Proof. apply fleet_run_lines. Qed.

Lemma fleet_run_log_witness :
  exists middle,
    stdout (shared demo_early_run)
    = [] ++ [opening (ssh_exec "uptime") +:+ newline] ++ middle ++ []
    /\ Forall (fun l => (exists i message,
                           In i (_get_running_instances demo_world)
                           /\ l = instance_line i message)
                        /\ l <> closing (ssh_exec "uptime") +:+ newline) middle.
Proof.
  destruct (fleet_run_log (ssh_exec "uptime") demo_world (shared demo_early_run)
              (Raise (KeyError "i-0a"))) as (middle & Hlog & HF & _).
  - exists demo_early_run. split; [apply rtc_run_schedule|]. split; vm_compute; reflexivity.
  - exists middle. split; [exact Hlog|exact HF].
Defined.

(** X7.  The fleet operations other than [ssh_connect] never write the
    session mapping, whatever the interleaving and however they end. *)
Theorem fleet_run_leaves_the_sessions op w w' r :
  op <> ssh_connect ->
  fleet_run op w (w', r) ->
  ssh_connections w' = ssh_connections w.
Proof.
  intros Hop Hrun.
  apply (fleet_run_keeps (fun s => ssh_connections s = ssh_connections w) op w w' r);
    [done| |done|done].
  intros a w0 Ha <-. apply fleet_args_inv in Ha as (i & _ & ->).
  apply wrapper_keeps_sessions. intros j. by destruct op.
Qed.

Lemma fleet_run_leaves_the_sessions_witness :
  ssh_connections demo_executed = ssh_connections demo_connected.
Proof.
  apply (fleet_run_leaves_the_sessions (ssh_exec "uptime") demo_connected demo_executed
           (Ok tt)); [discriminate|].
  exists demo_exec_run. split; [apply rtc_run_schedule|]. split; vm_compute; reflexivity.
Defined.

(** X11.  [start_core], [stop_core] and [uninstall_core] are [ssh_exec] of
    their fixed command between two log lines.  They never write the
    session mapping.  Their log is framed: the line of the method, the
    opening line of [ssh_exec] for the command, lines of [_log_instance]
    for running instances, and, exactly when the method returns, the
    closing line of [ssh_exec] and the one of the method.  When the method
    returns, the command has been announced for every running instance.
    When some running instance has no entry in the mapping, the method
    raises. *)
Theorem core_operations_run_the_command c w w' r :
  core_run c w (w', r) ->
  ssh_connections w' = ssh_connections w
  /\ (exists middle,
        stdout w' = stdout w
                    ++ [core_opening c +:+ newline;
                        opening (ssh_exec (core_command c)) +:+ newline]
                    ++ middle
                    ++ match r with
                       | Ok _ => [closing (ssh_exec (core_command c)) +:+ newline;
                                  core_closing c +:+ newline]
                       | Raise _ => []
                       end
        /\ Forall (fun l => exists i message,
                     In i (_get_running_instances w) /\ l = instance_line i message) middle
        /\ (r = Ok tt ->
            forall i, In i (_get_running_instances w) ->
              In (instance_line i ("Executing command: " +:+ core_command c)) middle))
  /\ (forall i, In i (_get_running_instances w) -> ssh_connections w !! id i = None ->
        exists e, r = Raise e).
Proof.
  intros (w1 & r1 & Hrun & Hout).
  assert (Hsess : ssh_connections w1 = ssh_connections w).
  { by rewrite (fleet_run_keeps (fun s => ssh_connections s = ssh_connections w)
                  (ssh_exec (core_command c)) (fst (_log (core_opening c) w)) w1 r1);
      [| |intros a w0 Ha <-; apply fleet_args_inv in Ha as (i & _ & ->);
          apply exec_keeps_sessions| |exact Hrun]. }
  destruct (fleet_run_lines _ _ _ _ Hrun) as (middle & Hlog & HF & Hfirst).
  cbn [fst _log _safe_print modify stdout set_stdout] in Hlog.
  change (_get_running_instances (fst (_log (core_opening c) w)))
    with (_get_running_instances w) in HF, Hfirst.
  split; [|split].
  - destruct r1 as [[]|e]; injection Hout as -> ->; [|done].
    cbn [fst _log _safe_print modify ssh_connections set_stdout]. exact Hsess.
  - exists middle. split; [|split].
    + destruct r1 as [[]|e]; injection Hout as -> ->.
      * cbn [fst _log _safe_print modify stdout set_stdout]. rewrite Hlog.
        by rewrite <- !app_assoc.
      * rewrite Hlog. by rewrite <- !app_assoc.
    + eapply Forall_impl; [exact HF|]. cbn. by intros l [H _].
    + intros -> i Hi. apply (Hfirst); [|done].
      destruct r1 as [[]|e]; [done|]. by injection Hout.
  - intros i Hi Hnone.
    destruct (fleet_run_some_raises
                (fun s => ssh_connections s = ssh_connections w)
                (ssh_exec (core_command c)) (fst (_log (core_opening c) w)) (w1, r1)
                (args_ssh_exec i (core_command c))) as [e He]; try done.
    + intros b s Hb <-. apply fleet_args_inv in Hb as (k & _ & ->). apply exec_keeps_sessions.
    + unfold fleet_args. by apply (in_map (args_for (ssh_exec (core_command c)))).
    + intros s Hs. exists (KeyError (id i)).
      cbn [_multi_args_wrapper]. by rewrite exec_cases, Hs, Hnone.
    + cbn [snd] in He. subst r1. injection Hout as -> ->. by exists e.
Qed.

Lemma core_operations_run_the_command_witness :
  ssh_connections (shared demo_core_run) = ssh_connections demo_world
  /\ exists middle,
       stdout (shared demo_core_run)
       = [] ++ [core_opening start_core +:+ newline;
                opening (ssh_exec (core_command start_core)) +:+ newline]
            ++ middle ++ [].
Proof.
  assert (Hrun : core_run start_core demo_world
                   (shared demo_core_run, Raise (KeyError "i-0a"))).
  { exists (shared demo_core_run), (Raise (KeyError "i-0a")). split; [|reflexivity].
    exists demo_core_run. split; [apply rtc_run_schedule|]. split; vm_compute; reflexivity. }
  destruct (core_operations_run_the_command start_core demo_world _ _ Hrun)
    as (Hs & (middle & Hlog & _) & _).
  split; [exact Hs|]. by exists middle.
Defined.


